(** * BaumEvolutionAlgorithms: the population container and the VEGA driver

    A shallow embedding of [baumeva/ga/populations/base_population.py]
    and [baumeva/vega.py].  Python objects that are mutated in place
    (the individuals, which are [dict]s held by reference in the
    population list) live in an explicit store; exceptions are the
    [Raise] results of an error monad. *)

From Stdlib Require Import ZArith QArith Qcanon List Permutation Sorted Lia.
From stdpp Require Import base option gmap strings numbers sorting list.

(** ** Python values, exceptions and comparisons *)

Module Py.

Inductive exn :=
| KeyError (k : string)
| TypeError
| IndexError.

Inductive result (A : Type) :=
| Ok (a : A)
| Raise (e : exn).
Arguments Ok {A} a.
Arguments Raise {A} e.

Global Instance result_ret : MRet result := fun A a => Ok a.
Global Instance result_bind : MBind result := fun A B f m =>
  match m with
  | Ok a => f a
  | Raise e => Raise e
  end.
Global Instance result_fmap : FMap result := fun A B f m =>
  match m with
  | Ok a => Ok (f a)
  | Raise e => Raise e
  end.

Definition is_ok {A} (r : result A) : bool :=
  match r with Ok _ => true | Raise _ => false end.

(** The two kinds of sequence: [<] orders a list against a list and a
    tuple against a tuple, never one against the other. *)
Inductive seq_kind := PyList | PyTuple.

Global Instance seq_kind_eq_dec : EqDecision seq_kind.
Proof. solve_decision. Defined.

(** The values an individual's fields hold: [None], a number ([int] or
    a finite [float], both exact rationals), the [float] not-a-number,
    or a list or tuple of finite numbers (a genotype, a vector of
    objective values). *)
Inductive value :=
| VNone
| VNum (q : Qc)
| VNaN
| VSeq (k : seq_kind) (l : list Qc).

Global Instance value_eq_dec : EqDecision value.
Proof. solve_decision. Defined.

Definition of_int (z : Z) : value := VNum (Q2Qc (inject_Z z)).

(** [a < b] on two lists: the first position where they differ decides,
    a proper prefix is smaller. *)
Fixpoint seq_lt (a b : list Qc) : bool :=
  match a, b with
  | _, [] => false
  | [], _ :: _ => true
  | x :: a', y :: b' =>
      if decide (x = y) then seq_lt a' b' else bool_decide (x < y)%Qc
  end.

(** Python's [a < b]: numbers with numbers, where every comparison
    with not-a-number is [False]; lists with lists and tuples with
    tuples; anything else (in particular [None]) is a [TypeError]. *)
Definition py_lt (a b : value) : result bool :=
  match a, b with
  | VNum x, VNum y => Ok (bool_decide (x < y)%Qc)
  | VNum _, VNaN | VNaN, VNum _ | VNaN, VNaN => Ok false
  | VSeq k x, VSeq k' y =>
      if decide (k = k') then Ok (seq_lt x y) else Raise TypeError
  | _, _ => Raise TypeError
  end.

(** [list.sort] is stable and uses [<] only.  It is modelled by the
    stable insertion of each element into the sorted rest; a comparison
    that raises aborts the sort.  Where [<] orders the keys (no
    not-a-number among them) every stable sort returns the same list;
    with not-a-number among the keys [<] is no order, the list returned
    depends on the comparisons the sort happens to make, and the model
    stands for one sort by [<] among others. *)
Section list_sort.
Context {A : Type} (lt : A → A → result bool).

Fixpoint insert (x : A) (l : list A) : result (list A) :=
  match l with
  | [] => Ok [x]
  | y :: l' =>
      b ← lt y x;
      if (b : bool) then (y ::.) <$> insert x l' else Ok (x :: y :: l')
  end.

Fixpoint isort (l : list A) : result (list A) :=
  match l with
  | [] => Ok []
  | x :: l' => s ← isort l'; insert x s
  end.

(** With [reverse=True] the list is reversed, sorted and reversed
    again, which keeps equal elements in their original order. *)
Definition sort (reverse : bool) (l : list A) : result (list A) :=
  s ← isort (if reverse then list.reverse l else l);
  Ok (if reverse then list.reverse s else s).

(** [a] may stand before [b]: [b < a] is false. *)
Definition not_after (a b : A) : Prop := lt b a = Ok false.

Definition asymmetric : Prop := ∀ x y, lt x y = Ok true → lt y x = Ok false.

(** Ascending for [reverse=False], descending for [reverse=True]. *)
Definition in_order (rv : bool) : relation A :=
  if rv then flip not_after else not_after.
End list_sort.

(** The order of the keys after a sort: no key is smaller than the one
    before it, or, with [reverse=True], than the one after it. *)
Definition ordered (rv : bool) : relation value := in_order py_lt rv.

Definition num_ordered (rv : bool) : relation Qc :=
  if rv then flip Qcle else Qcle.

(** [len(x)]: defined on sequences only. *)
Definition py_len (x : value) : result Z :=
  match x with
  | VSeq _ l => Ok (Z.of_nat (length l))
  | _ => Raise TypeError
  end.

(** [range(a, b)] *)
Definition py_range (a b : Z) : list Z :=
  map (fun k => (a + Z.of_nat k)%Z) (seq 0 (Z.to_nat (b - a))).

End Py.
Export Py.

(** ** base_population.py *)

Module Population.

(** An individual is a [dict] with string keys. *)
Abbreviation individ := (gmap string value).

(** The population is a Python [list] of references to individuals;
    [store] maps a reference to the dict it denotes. *)
Definition ref := nat.
Abbreviation store := (list individ).

Record BasePopulation := mkPopulation {
  items : list ref;
  is_sorted : bool;
  num_individ : option Z;
  gens : option (list (Qc * Qc * Qc));
  input_population : option (list (list Qc))
}.

Definition set_items (its : list ref) (p : BasePopulation) : BasePopulation :=
  mkPopulation its (is_sorted p) (num_individ p) (gens p) (input_population p).
Definition set_is_sorted (b : bool) (p : BasePopulation) : BasePopulation :=
  mkPopulation (items p) b (num_individ p) (gens p) (input_population p).

(** [BasePopulation()] with the class-level defaults. *)
Definition empty_population : BasePopulation :=
  mkPopulation [] false None None None.

(** A method runs on the receiver and the store of individuals. *)
Record world := mkWorld { self : BasePopulation; dicts : store }.
Definition method (A : Type) := world → result (A * world).

(** The dict a reference denotes. *)
Definition deref (h : store) (r : ref) : individ := default ∅ (h !! r).

(** Every reference held by the population denotes a dict. *)
Definition live (w : world) : Prop :=
  Forall (λ r, r < length (dicts w)) (items (self w)).

(** The individuals in iteration order. *)
Definition individuals (w : world) : list individ :=
  deref (dicts w) <$> items (self w).

(** [def add_dict(self, **data): self.append(data)], called with the
    record as keyword arguments.  A keyword named [self] collides with
    the first parameter: the call raises [TypeError] before the body
    runs.  Otherwise [data] is the dict of the keyword arguments the
    call has bound, a new dict at every call. *)
Definition add_dict (data : individ) : method () := fun w =>
  match data !! "self" with
  | Some _ => Raise TypeError
  | None =>
      let r := length (dicts w) in
      Ok ((), mkWorld (set_items (items (self w) ++ [r]) (self w))
                      (dicts w ++ [data]))
  end.

(** The loop of [reset_idx_individ]: [individ['idx_individ'] = i; i += 1]
    on each element in turn, writing through the reference, so that
    an individual held twice is written twice. *)
Fixpoint reset_loop (its : list ref) (i : Z) (h : store) : store :=
  match its with
  | [] => h
  | r :: rest =>
      reset_loop rest (i + 1)%Z (alter (<["idx_individ" := of_int i]>) r h)
  end.

Definition reset_idx_individ : method () := fun w =>
  Ok ((), mkWorld (self w) (reset_loop (items (self w)) 0 (dicts w))).

(** [d[key]] *)
Definition getitem (key : string) (d : individ) : result value :=
  match d !! key with
  | Some v => Ok v
  | None => Raise (KeyError key)
  end.

(** The keys [d[key_dict]] are computed for all elements before any
    comparison is made. *)
Fixpoint keyed (h : store) (key : string) (its : list ref)
  : result (list (value * ref)) :=
  match its with
  | [] => Ok []
  | r :: rest =>
      k ← getitem key (deref h r);
      ks ← keyed h key rest;
      Ok ((k, r) :: ks)
  end.

(** The comparison [list.sort] makes: the keys only. *)
Definition lt_key (a b : value * ref) : result bool := py_lt a.1 b.1.

(** [self.sort(key=lambda d: d[key_dict], reverse=reverse)], then the
    flag.  When the sort raises, the method raises. *)
Definition sort_by_dict (key_dict : string) (reverse : bool) : method () := fun w =>
  ks ← keyed (dicts w) key_dict (items (self w));
  s ← sort lt_key reverse ks;
  let p := set_items s.*2 (self w) in
  Ok ((), mkWorld (if decide (key_dict = "score") then set_is_sorted true p else p)
                  (dicts w)).

(** [dict.fromkeys(d.keys())] *)
Definition fromkeys (d : individ) : individ := (λ _, VNone) <$> d.

(** The result is [None] (here [None : option]) on an empty population. *)
Definition get_empty_individ : method (option individ) := fun w =>
  match items (self w) with
  | r :: _ => Ok (Some (fromkeys (deref (dicts w) r)), w)
  | [] => Ok (None, w)
  end.

(** The field [key] of every individual, in iteration order. *)
Definition field (key : string) (w : world) : list (option value) :=
  (.!! key) <$> individuals w.

(** The entry [r] holds the value [v] under [key]. *)
Definition has (h : store) (key : string) (v : value) (r : ref) : Prop :=
  deref h r !! key = Some v.

Global Instance has_dec h key v r : Decision (has h key v r).
Proof. unfold has. apply _. Defined.

(** The [idx_individ] fields read in iteration order. *)
Definition idx_fields (w : world) : list (option value) :=
  (.!! "idx_individ") <$> individuals w.

(** The indices [0, 1, ..., n-1] as field values. *)
Definition dense (n : nat) : list (option value) :=
  (λ i, Some (of_int (Z.of_nat i))) <$> seq 0 n.

(** Four individuals with the scores 3, 1, 3, 2. *)
Definition scored (q : Z) : individ := {["score" := of_int q]}.
Definition four : world :=
  mkWorld (mkPopulation [0; 1; 2; 3]%nat false None None None)
          [scored 3; scored 1; scored 3; scored 2].


(** Two entries that are one and the same dict. *)
Definition aliased : world :=
  mkWorld (mkPopulation [0; 0]%nat false None None None) [∅].

(** The position, counted from [i], of the last entry of the list
    that is the reference [r]. *)
Fixpoint last_pos (r : ref) (its : list ref) (i : Z) : option Z :=
  match its with
  | [] => None
  | r0 :: rest =>
      match last_pos r rest (i + 1)%Z with
      | Some k => Some k
      | None => if decide (r0 = r) then Some i else None
      end
  end.

(** The populations the methods of [BasePopulation] make of an empty
    one. *)
Inductive built : world → Prop :=
| built_new p h : items p = [] → built (mkWorld p h)
| built_add_dict w data w' :
    built w → add_dict data w = Ok ((), w') → built w'
| built_sort_by_dict w key_dict reverse w' :
    built w → sort_by_dict key_dict reverse w = Ok ((), w') → built w'
| built_reset_idx_individ w w' :
    built w → reset_idx_individ w = Ok ((), w') → built w'
| built_get_empty_individ w d w' :
    built w → get_empty_individ w = Ok (d, w') → built w'.

End Population.

(** ** The [ga] package as the driver sees it *)

Module GaData.
Import Population.

(** Modelled from the spec: class [MultiGaData] (and its base [GaData])
    is not in src/.  The record has the attributes [VEGA.optimize]
    reads and writes, and the run state the spec lists for GaData:
    the generation index, the no-improvement counter and the best
    individual seen so far. *)
Record GaData := mkGaData {
  num_generations : Z;
  children_percent : Qc;
  early_stop : Z;
  num_generation : Z;
  num_generation_no_improve : Z;
  population : option BasePopulation;
  best_solution : option individ
}.

(** Modelled from the spec: the constructor call
    [MultiGaData(num_generations=, children_percent=, early_stop=)];
    a fresh run has seen no generation and holds no population. *)
Definition MultiGaData (num_generations : Z) (children_percent : Qc)
    (early_stop : Z) : GaData :=
  mkGaData num_generations children_percent early_stop 0 0 None None.

(** [ga_data.population = population] *)
Definition set_population (p : BasePopulation) (g : GaData) : GaData :=
  mkGaData (num_generations g) (children_percent g) (early_stop g)
           (num_generation g) (num_generation_no_improve g) (Some p)
           (best_solution g).

End GaData.

Module Ga.
Import Population.
Export GaData.

(** The mutable state a call into the package can touch: the store of
    individuals and whatever else the package keeps (the random number
    generator, the parent and child pools). *)
Record state (H : Type) := mkState { dicts : store; hidden : H }.
Arguments mkState {H} dicts hidden.
Arguments dicts {H} s.
Arguments hidden {H} s.

Definition op (H A : Type) := state H → result (A * state H).

(** A concrete population class supplies the abstract methods of
    [BasePopulation]. *)
Record PopulationClass (H : Type) := {
  new : op H BasePopulation;
  set_params : Z → list (Qc * Qc * Qc) → option (list (list Qc)) →
               BasePopulation → op H BasePopulation;
  fill : BasePopulation → op H BasePopulation
}.
Arguments new {H} p.
Arguments set_params {H} p.
Arguments fill {H} p.

(** The user's objective function: [my_func(gens)] or
    [my_func(input_data, gens)]. *)
Inductive callable :=
| Fn1 (f : list Qc → result value)
| Fn2 (f : value → list Qc → result value).

(** A call with one positional argument; a function of two required
    arguments rejects it. *)
Definition call1 (f : callable) (x : list Qc) : result value :=
  match f with
  | Fn1 g => g x
  | Fn2 _ => Raise TypeError
  end.

(** What [vega.py] uses of the package [.ga], none of which is in src/:
    the constructors of the population and of the operators, and the
    methods [optimize] calls on them; [execute] and [update] receive
    [ga_data] and may change any of it. *)
Class GaPackage := {
  Hidden : Type;
  BasePenalty : Type;
  Fitness : Type;
  Selection : Type;
  Crossover : Type;
  Mutation : Type;
  NewGeneration : Type;
  BinaryPopulation : PopulationClass Hidden;
  BinaryGrayPopulation : PopulationClass Hidden;
  VEGAHyperbolaFitness :
    callable → option Qc → value → option BasePenalty →
    option (list string) → op Hidden Fitness;
  VEGATournamentSelection : Z → op Hidden Selection;
  OnePointCrossover : op Hidden Crossover;
  BinStringMutation : string + Qc → op Hidden Mutation;
  MultiNewGeneration : string → op Hidden NewGeneration;
  fitness_execute : Fitness → GaData → op Hidden GaData;
  selection_execute : Selection → GaData → op Hidden GaData;
  cross_execute : Crossover → GaData → op Hidden GaData;
  mutation_execute : Mutation → GaData → op Hidden GaData;
  new_generation_execute : NewGeneration → GaData → op Hidden GaData;
  update : GaData → op Hidden GaData;
  print_best_solution : GaData → op Hidden ()
}.

End Ga.

(** ** vega.py *)

Module VEGA.
Import Population.
Export Ga.

(** The calls [optimize] makes, in the order it makes them. *)
Inductive event :=
| EObjective (args : list Qc)
| ENewPopulation (is_gray : bool)
| ESetParams
| ENewFitness
| ENewSelection (num_objectives : Z)
| ENewCrossover
| ENewMutation
| ENewNewGeneration
| EFill
| EFitness
| EUpdate
| ESelection
| ECrossover
| EMutation
| ENewGen
| EPrint.

Global Instance event_eq_dec : EqDecision event.
Proof. solve_decision. Defined.

Section driver.
Context `{pkg : GaPackage}.

Record VEGA := mkVEGA {
  num_generations : Z;
  num_individ : Z;
  gens : list (Qc * Qc * Qc);
  obj_function : callable;
  obj_value : option Qc;
  input_data : value;
  penalty : option BasePenalty;
  conditions : option (list string);
  is_gray : bool;
  children_percent : Qc;
  early_stop : Z;
  input_population : option (list (list Qc));
  tournament_size : Z;
  mutation_lvl : string + Qc;
  transfer_parents : string;
  is_print : bool
}.

(** [VEGA.__init__]; [early_stop] may be [None]. *)
Definition __init__ (num_generations num_individ : Z)
    (gens : list (Qc * Qc * Qc)) (obj_function : callable)
    (obj_value : option Qc) (input_data : value)
    (penalty : option BasePenalty) (conditions : option (list string))
    (is_gray : bool) (children_percent : Qc) (early_stop : option Z)
    (input_population : option (list (list Qc))) (tournament_size : Z)
    (mutation_lvl : string + Qc) (transfer_parents : string)
    (is_print : bool) : VEGA :=
  mkVEGA num_generations num_individ gens obj_function obj_value
    input_data penalty conditions is_gray children_percent
    (match early_stop with Some e => e | None => num_generations end)
    input_population tournament_size mutation_lvl transfer_parents
    is_print.

(** The driver runs in a state-and-exception monad that also records
    the calls made so far. *)
Definition config : Type := state Hidden * list event.
Definition M (A : Type) : Type := config → result A * config.

Global Instance M_ret : MRet M := λ A a s, (Ok a, s).
Global Instance M_bind : MBind M := λ A B f m s,
  match m s with
  | (Ok a, s') => f a s'
  | (Raise e, s') => (Raise e, s')
  end.

(** Log the call, then make it; a call that raises leaves the state
    it was made in. *)
Definition call {A} (ev : event) (o : op Hidden A) : M A := λ s,
  match o s.1 with
  | Ok (a, st) => (Ok a, (st, s.2 ++ [ev]))
  | Raise e => (Raise e, (s.1, s.2 ++ [ev]))
  end.

Definition lift {A} (r : result A) : M A := λ s, (r, s).

Definition pure_op {A} (r : result A) : op Hidden A := λ st,
  a ← r; Ok (a, st).

(** Line 72-73: the number of objectives. *)
Definition num_objectives_of (self : VEGA) : M Z :=
  match conditions self with
  | None =>
      let zeros := replicate (length (gens self)) 0%Qc in
      r ← call (EObjective zeros) (pure_op (call1 (obj_function self) zeros));
      lift (py_len r)
  | Some c => mret (Z.of_nat (length (filter (.= "optimize") c)))
  end.

(** The operators [optimize] constructs and keeps in local variables. *)
Record operators := mkOperators {
  fitness_func : Fitness;
  selection : Selection;
  cross : Crossover;
  mutation : Mutation;
  new_generation : NewGeneration
}.

(** Lines 72-94: the objects of the run and the first generation. *)
Definition first_generation_of (self : VEGA) : M (operators * GaData) :=
  num_objectives ← num_objectives_of self;
  let ga_data := MultiGaData (num_generations self) (children_percent self)
                             (early_stop self) in
  let cls := if is_gray self then BinaryGrayPopulation else BinaryPopulation in
  population ← call (ENewPopulation (is_gray self)) (new cls);
  population ← call ESetParams
    (set_params cls (num_individ self) (gens self) (input_population self)
                population);
  fitness_func ← call ENewFitness
    (VEGAHyperbolaFitness (obj_function self) (obj_value self)
       (input_data self) (penalty self) (conditions self));
  selection ← call (ENewSelection num_objectives)
    (VEGATournamentSelection num_objectives);
  cross ← call ENewCrossover OnePointCrossover;
  mutation ← call ENewMutation (BinStringMutation (mutation_lvl self));
  new_generation ← call ENewNewGeneration
    (MultiNewGeneration (transfer_parents self));
  population ← call EFill (fill cls population);
  let ga_data := set_population population ga_data in
  ga_data ← call EFitness (fitness_execute fitness_func ga_data);
  ga_data ← call EUpdate (update ga_data);
  mret (mkOperators fitness_func selection cross mutation new_generation,
        ga_data).

(** The body of the main loop up to and including [ga_data.update()]. *)
Definition evolving_step (ops : operators) (ga_data : GaData) : M GaData :=
  ga_data ← call ESelection (selection_execute (selection ops) ga_data);
  ga_data ← call ECrossover (cross_execute (cross ops) ga_data);
  ga_data ← call EMutation (mutation_execute (mutation ops) ga_data);
  ga_data ← call ENewGen
    (new_generation_execute (new_generation ops) ga_data);
  ga_data ← call EFitness (fitness_execute (fitness_func ops) ga_data);
  call EUpdate (update ga_data).

(** [for i in range(1, ga_data.num_generations): ...; if ...: break] *)
Fixpoint main_loop (ops : operators) (iters : list Z) (ga_data : GaData)
  : M GaData :=
  match iters with
  | [] => mret ga_data
  | i :: rest =>
      ga_data ← evolving_step ops ga_data;
      if bool_decide (GaData.num_generation_no_improve ga_data
                      > GaData.early_stop ga_data)%Z
      then mret ga_data
      else main_loop ops rest ga_data
  end.

Definition optimize (self : VEGA) : M GaData :=
  first ← first_generation_of self;
  let ops := first.1 in
  let ga_data := first.2 in
  ga_data ← main_loop ops (py_range 1 (GaData.num_generations ga_data))
                      ga_data;
  _ ← (if is_print self then call EPrint (print_best_solution ga_data)
       else mret ());
  mret ga_data.

(** The values of [ga_data] after each [update()] of the loop, up to
    the step that leaves the loop or raises. *)
Fixpoint history (ops : operators) (iters : list Z) (ga_data : GaData)
    (s : config) : list GaData :=
  match iters with
  | [] => []
  | i :: rest =>
      match evolving_step ops ga_data s with
      | (Ok g, s') =>
          g :: (if bool_decide (GaData.num_generation_no_improve g
                                > GaData.early_stop g)%Z
                then []
                else history ops rest g s')
      | (Raise _, _) => []
      end
  end.

(** Successive values of [ga_data], each related to the one before. *)
Fixpoint chain (R : GaData → GaData → Prop) (g : GaData)
    (gs : list GaData) : Prop :=
  match gs with
  | [] => True
  | g' :: rest => R g g' ∧ chain R g' rest
  end.

(** A generation without improvement: [update()] adds one to the
    counter; the threshold stays. *)
Definition no_improvement (a b : GaData) : Prop :=
  num_generation_no_improve b = (num_generation_no_improve a + 1)%Z
  ∧ GaData.early_stop b = GaData.early_stop a.

(** Any generation: [update()] adds one to the counter or resets it. *)
Definition counted (a b : GaData) : Prop :=
  (num_generation_no_improve b = 0%Z
   ∨ num_generation_no_improve b = (num_generation_no_improve a + 1)%Z)
  ∧ GaData.early_stop b = GaData.early_stop a.

(** The calls of a run, in order: the probe of the objective function
    (without [conditions]), the constructors, the first generation,
    [k] generations of the loop and the final print. *)
Definition probe (self : VEGA) : list event :=
  match conditions self with
  | None => [EObjective (replicate (length (gens self)) 0%Qc)]
  | Some _ => []
  end.

Definition setup (gray : bool) (n : Z) : list event :=
  [ENewPopulation gray; ESetParams; ENewFitness; ENewSelection n;
   ENewCrossover; ENewMutation; ENewNewGeneration].

Definition first_generation : list event := [EFill; EFitness; EUpdate].

Definition generation : list event :=
  [ESelection; ECrossover; EMutation; ENewGen; EFitness; EUpdate].

Definition finish (self : VEGA) : list event :=
  if is_print self then [EPrint] else [].

Definition body (self : VEGA) (n : Z) (k : nat) : list event :=
  setup (is_gray self) n ++ first_generation
  ++ concat (replicate k generation) ++ finish self.

(** The calls that make up a generation, the first one included. *)
Definition is_phase (e : event) : bool :=
  match e with
  | EFill | EFitness | EUpdate | ESelection | ECrossover | EMutation
  | ENewGen => true
  | _ => false
  end.

End driver.
End VEGA.

(** ** A reference instance of the package *)

Module Reference.
Import Population.
Import VEGA.

(** Modelled from the spec: the concrete population classes are not in
    src/; [set_params] records the parameters of the population. *)
Definition set_params (n : Z) (g : list (Qc * Qc * Qc))
    (ip : option (list (list Qc))) (p : BasePopulation)
  : op () BasePopulation := λ st,
  Ok (mkPopulation (items p) (is_sorted p) (Some n) (Some g) ip, st).

(** A new individual, every gene at its minimum. *)
Definition fresh_individ (g : list (Qc * Qc * Qc)) (i : nat) : individ :=
  <["idx_individ" := of_int (Z.of_nat i)]>
    (<["gens" := VSeq PyList ((λ t, t.1.1) <$> g)]>
       (<["score" := VNone]> ∅)).

Fixpoint fill_loop (g : list (Qc * Qc * Qc)) (idxs : list nat) (w : world)
  : result world :=
  match idxs with
  | [] => Ok w
  | i :: rest => r ← add_dict (fresh_individ g i) w; fill_loop g rest r.2
  end.

(** Modelled from the spec: [fill] of the concrete population classes
    creates [num_individ] individuals; here through [add_dict], with
    one of the outcomes of the random choice of genes. *)
Definition fill (p : BasePopulation) : op () BasePopulation := λ st,
  w ← fill_loop (default [] (Population.gens p))
                (seq 0 (Z.to_nat (default 0%Z (Population.num_individ p))))
                (mkWorld p (dicts st));
  Ok (self w, mkState (Population.dicts w) ()).

(** Modelled from the spec: [BinaryPopulation] and
    [BinaryGrayPopulation], which differ in the encoding only. *)
Definition population_class : PopulationClass () :=
  {| new := λ st, Ok (empty_population, st);
     Ga.set_params := set_params;
     Ga.fill := fill |}.

(** The first objective of what the objective function returned. *)
Definition raw_of (v : value) : result Qc :=
  match v with
  | VNum r => Ok r
  | VSeq _ (r :: _) => Ok r
  | _ => Raise TypeError
  end.

Definition call_objective (f : callable) (input : value) (x : list Qc)
  : result value :=
  match f with
  | Fn1 g => g x
  | Fn2 g => g input x
  end.

Definition gens_of (d : individ) : list Qc :=
  match d !! "gens" with
  | Some (VSeq _ l) => l
  | _ => []
  end.

Fixpoint fitness_loop (f : callable) (input : value) (its : list ref)
    (h : store) : result store :=
  match its with
  | [] => Ok h
  | r :: rest =>
      v ← call_objective f input (gens_of (deref h r));
      raw ← raw_of v;
      fitness_loop f input rest
        (alter (<["score" := VNum (1 / (1 + raw))%Qc]>) r h)
  end.

(** Modelled from the spec: the fitness pass is not in src/.  It calls
    the objective function on the decoded genes of every individual and
    writes [score = 1 / (1 + raw)] (no target, no penalty) in place. *)
Definition fitness_execute (f : callable * value) (g : GaData)
  : op () GaData := λ st,
  match population g with
  | None => Raise TypeError
  | Some p =>
      h ← fitness_loop f.1 f.2 (items p) (dicts st);
      Ok (g, mkState h ())
  end.

Definition score_of (d : individ) : value := default VNone (d !! "score").

(** The current best score beats the best so far (the first
    generation has nothing to beat). *)
Definition improves (best : option individ) (cur : individ) : bool :=
  match best with
  | None => true
  | Some b =>
      match py_lt (score_of b) (score_of cur) with
      | Ok true => true
      | _ => false
      end
  end.

(** The best [num_individ] of a population sorted by score. *)
Definition truncate (p : BasePopulation) : BasePopulation :=
  match Population.num_individ p with
  | Some n => set_items (drop (length (items p) - Z.to_nat n) (items p)) p
  | None => p
  end.

(** Modelled from the spec: [GaData.update] is not in src/.  It raises
    on an empty population; (a) resorts by score, (b) compares the best
    current score with the best so far, (c) counts the generation as
    one without improvement or resets the counter, (d) truncates an
    oversized population, (e) advances the generation index. *)
Definition update (g : GaData) : op () GaData := λ st,
  match population g with
  | None => Raise IndexError
  | Some p =>
      match items p with
      | [] => Raise IndexError
      | _ :: _ =>
          r ← sort_by_dict "score" false (mkWorld p (dicts st));
          let p := self r.2 in
          let cur := deref (dicts st) (default 0%nat (last (items p))) in
          let better := improves (best_solution g) cur in
          Ok (mkGaData (GaData.num_generations g) (GaData.children_percent g)
                (GaData.early_stop g) (num_generation g + 1)%Z
                (if better then 0%Z else (num_generation_no_improve g + 1)%Z)
                (Some (truncate p))
                (if better then Some cur else best_solution g),
              st)
      end
  end.

(** Modelled from the spec: selection, crossover, mutation and
    replacement are not in src/.  The stand-in leaves [ga_data] as it
    is; the control flow of the driver does not depend on what they do
    to the population. *)
Definition skip (g : GaData) : op () GaData := λ st, Ok (g, st).

(** Modelled from the spec: the [ga] package, put together from the
    definitions above. *)
#[local] Instance package : GaPackage := {|
  Hidden := ();
  BasePenalty := ();
  Fitness := callable * value;
  Selection := Z;
  Crossover := ();
  Mutation := ();
  NewGeneration := ();
  BinaryPopulation := population_class;
  BinaryGrayPopulation := population_class;
  VEGAHyperbolaFitness := λ f _ input _ _ st, Ok ((f, input), st);
  VEGATournamentSelection := λ n st, Ok (n, st);
  OnePointCrossover := λ st, Ok ((), st);
  BinStringMutation := λ _ st, Ok ((), st);
  MultiNewGeneration := λ _ st, Ok ((), st);
  Ga.fitness_execute := fitness_execute;
  selection_execute := λ _, skip;
  cross_execute := λ _, skip;
  mutation_execute := λ _, skip;
  new_generation_execute := λ _, skip;
  Ga.update := update;
  print_best_solution := λ _ st, Ok ((), st)
|}.

(** A run of [optimize] from the empty store. *)
Definition run (self : VEGA) : result GaData * config :=
  optimize self (mkState [] (), []).

(** An objective function of the form [my_func(gens)] with the same
    value everywhere. *)
Definition constant (c : Qc) : callable := Fn1 (λ _, Ok (VSeq PyTuple [c])).

(** One gene in [0..7], four individuals, nothing printed. *)
Definition demo (n : Z) (early_stop : option Z) (f : callable)
    (conditions : option (list string)) : VEGA :=
  __init__ n 4 [(0%Qc, Q2Qc 7, 1%Qc)] f None VNone None conditions false
           (Q2Qc (95 # 100)) early_stop None 5 (inl "normal") "best" false.

(** A run with a constant objective. *)
Definition constant_run (n : Z) (early_stop : option Z) : VEGA :=
  demo n early_stop (constant (Q2Qc 2)) None.

(** An objective function of the form [my_func(input_data, gens)]. *)
Definition two_arguments : callable :=
  Fn2 (λ _ _, Ok (VSeq PyTuple [Q2Qc 1])).

(** The operators and [ga_data] of a run at the entry of the loop. *)
Definition start (self : VEGA) : operators * GaData * config :=
  match first_generation_of self (mkState [] (), []) with
  | (Ok first, s) => (first.1, first.2, s)
  | (Raise _, s) =>
      (mkOperators (constant 0, VNone) 0%Z () () (), MultiGaData 0 0 0, s)
  end.

End Reference.

(** * Properties of the sort *)

Section sort_facts.
Context {A : Type} (lt : A → A → result bool).

Lemma insert_Permutation x l l' : insert lt x l = Ok l' → l' ≡ₚ x :: l.
Proof.
  revert l'; induction l as [|y l IH]; intros l'; simpl.
  - by intros [= <-].
  - destruct (lt y x) as [[]|e]; simpl; [|by intros [= <-]|done].
    destruct (insert lt x l) as [l2|e]; simpl; [|done].
    intros [= <-]. rewrite (IH l2) by done. apply perm_swap.
Qed.

Lemma isort_Permutation l l' : isort lt l = Ok l' → l' ≡ₚ l.
Proof.
  revert l'; induction l as [|x l IH]; intros l'; simpl.
  - by intros [= <-].
  - destruct (isort lt l) as [s|e]; simpl; [|done].
    intros Hins%insert_Permutation. by rewrite Hins, (IH s).
Qed.

Lemma insert_HdRel y x l l' :
  lt y x = Ok true → asymmetric lt → HdRel (not_after lt) y l →
  insert lt x l = Ok l' → HdRel (not_after lt) y l'.
Proof.
  intros Hyx Has Hhd. destruct l as [|z l]; simpl.
  - intros [= <-]. constructor. by apply Has.
  - apply HdRel_inv in Hhd.
    destruct (lt z x) as [[]|e]; simpl; [|intros [= <-]|done].
    + destruct (insert lt x l); simpl; [|done]. intros [= <-]. by constructor.
    + constructor. by apply Has.
Qed.

Lemma insert_Sorted x l l' :
  asymmetric lt → Sorted (not_after lt) l → insert lt x l = Ok l' →
  Sorted (not_after lt) l'.
Proof.
  intros Has. revert l'; induction l as [|y l IH]; intros l' Hs; simpl.
  - intros [= <-]. repeat constructor.
  - apply Sorted_inv in Hs as [Hs Hhd].
    destruct (lt y x) as [[]|e] eqn:Hyx; simpl; [| |done].
    + destruct (insert lt x l) as [l2|e] eqn:Hins; simpl; [|done].
      intros [= <-]. constructor; [by apply IH|].
      by eapply insert_HdRel.
    + intros [= <-]. constructor; [by constructor|]. by constructor.
Qed.

Lemma isort_Sorted l l' :
  asymmetric lt → isort lt l = Ok l' → Sorted (not_after lt) l'.
Proof.
  intros Has. revert l'; induction l as [|x l IH]; intros l'; simpl.
  - intros [= <-]. constructor.
  - destruct (isort lt l) as [s|e]; simpl; [|done].
    apply insert_Sorted; auto.
Qed.

(** Elements of a class [P] no two of which are in the relation [<]
    are never moved past each other. *)
Section stable.
Context (P : A → Prop) `{!∀ x, Decision (P x)}.
Hypothesis P_ties : ∀ x y, P x → P y → lt x y ≠ Ok true.



End stable.

Lemma sort_Permutation rv l l' : sort lt rv l = Ok l' → l' ≡ₚ l.
Proof.
  unfold sort. destruct rv.
  - destruct (isort lt (reverse l)) as [s|e] eqn:Hs; simpl; [|done].
    intros [= <-]. apply isort_Permutation in Hs.
    by rewrite reverse_Permutation, Hs, reverse_Permutation.
  - destruct (isort lt l) as [s|e] eqn:Hs; simpl; [|done].
    intros [= <-]. by apply isort_Permutation.
Qed.

Lemma sort_Sorted rv l l' :
  asymmetric lt → sort lt rv l = Ok l' → Sorted (in_order lt rv) l'.
Proof.
  intros Has. unfold sort. destruct rv; simpl.
  - destruct (isort lt (reverse l)) as [s|e] eqn:Hs; simpl; [|done].
    intros [= <-]. apply Sorted_reverse. by eapply isort_Sorted.
  - destruct (isort lt l) as [s|e] eqn:Hs; simpl; [|done].
    intros [= <-]. by eapply isort_Sorted.
Qed.

(** The sort returns when all the comparisons it can make do. *)
Lemma insert_total x l :
  (∀ y, y ∈ l → is_ok (lt y x)) → is_ok (insert lt x l).
Proof.
  induction l as [|y l IH]; intros Hcmp; simpl; [done|].
  destruct (lt y x) as [[]|e] eqn:Hyx; simpl; [|done|].
  - destruct (insert lt x l) eqn:Hins; simpl; [done|].
    apply IH. intros z Hz. apply Hcmp. by right.
  - specialize (Hcmp y). rewrite Hyx in Hcmp. apply Hcmp. by left.
Qed.

Lemma isort_total l :
  (∀ x y, x ∈ l → y ∈ l → is_ok (lt x y)) → is_ok (isort lt l).
Proof.
  induction l as [|x l IH]; intros Hcmp; simpl; [done|].
  destruct (isort lt l) as [s|e] eqn:Hs; simpl.
  - apply insert_total. intros y Hy. apply Hcmp; [|by left].
    right. by rewrite <-(isort_Permutation _ _ Hs).
  - apply IH. intros y z Hy Hz. apply Hcmp; by right.
Qed.

Lemma sort_total rv l :
  (∀ x y, x ∈ l → y ∈ l → is_ok (lt x y)) → is_ok (sort lt rv l).
Proof.
  intros Hcmp. unfold sort.
  destruct (isort lt (if rv then reverse l else l)) as [s|e] eqn:Hs;
    simpl; [done|].
  assert (is_ok (isort lt (if rv then reverse l else l))) as Hok.
  { apply isort_total. intros x y Hx Hy.
    destruct rv; [rewrite elem_of_reverse in Hx, Hy|]; by apply Hcmp. }
  by rewrite Hs in Hok.
Qed.
End sort_facts.

(** * Properties of the comparison *)


Lemma seq_lt_asym a b : seq_lt a b = true → seq_lt b a = false.
Proof.
  revert b; induction a as [|x a IH]; intros [|y b]; simpl; try done.
  destruct (decide (x = y)) as [->|Hne].
  - rewrite decide_True by done. apply IH.
  - rewrite decide_False by done. intros Hlt%bool_decide_eq_true.
    apply bool_decide_eq_false. by apply Qcle_not_lt, Qclt_le_weak.
Qed.


Lemma py_lt_asym : asymmetric py_lt.
Proof.
  intros [|x| |k a] [|y| |k' b]; simpl; try done.
  - intros [= Hlt%bool_decide_eq_true]. f_equal.
    apply bool_decide_eq_false. by apply Qcle_not_lt, Qclt_le_weak.
  - destruct (decide (k = k')) as [->|Hne]; [|done].
    rewrite decide_True by done.
    intros [= Hlt]. f_equal. by apply seq_lt_asym.
Qed.

Lemma ordered_num rv x y : ordered rv (VNum x) (VNum y) → num_ordered rv x y.
Proof.
  destruct rv; simpl; unfold flip, not_after; simpl;
    intros [= Hlt%bool_decide_eq_false]; by apply Qcnot_lt_le.
Qed.

Lemma Sorted_num rv qs :
  Sorted (ordered rv) (VNum <$> qs) → StronglySorted (num_ordered rv) qs.
Proof.
  intros Hs. apply Sorted_StronglySorted.
  { destruct rv; simpl; intros x y z; unfold flip; eauto using Qcle_trans. }
  induction qs as [|q qs IH]; [constructor|].
  apply Sorted_inv in Hs as [Hs Hhd]. constructor; [by apply IH|].
  destruct qs as [|q' qs]; constructor.
  apply HdRel_inv in Hhd. by apply ordered_num.
Qed.

(** * Properties of the population container *)

Section population_facts.
Import Population.

Lemma reset_loop_other its i h r :
  r ∉ its → reset_loop its i h !! r = h !! r.
Proof.
  revert i h; induction its as [|r0 rest IH]; intros i h Hr; simpl; [done|].
  apply not_elem_of_cons in Hr as [Hne Hr].
  rewrite IH by done. by apply list_lookup_alter_ne.
Qed.

Lemma reset_loop_field its i h k r :
  NoDup its → Forall (λ r, r < length h) its → its !! k = Some r →
  deref (reset_loop its i h) r !! "idx_individ"
  = Some (of_int (i + Z.of_nat k)).
Proof.
  revert i h k; induction its as [|r0 rest IH]; intros i h k Hnd Hlive Hk;
    [done|].
  apply NoDup_cons in Hnd as [Hnotin Hnd].
  destruct k as [|k]; simpl in *.
  - injection Hk as ->. unfold deref.
    rewrite reset_loop_other, list_lookup_alter by done.
    apply Forall_cons in Hlive as [Hr _].
    destruct (lookup_lt_is_Some_2 h r) as [d Hd]; [done|].
    rewrite Hd; simpl. rewrite decide_True by done; simpl.
    rewrite lookup_insert_eq. do 2 f_equal. lia.
  - apply Forall_cons in Hlive as [_ Hlive].
    rewrite (IH (i + 1)%Z _ k); [do 2 f_equal; lia|done| |done].
    by rewrite length_alter.
Qed.

(** C6 (as amended): on a population whose [n] entries are [n]
    different individuals, [reset_idx_individ] leaves the population
    list as it is and makes the [idx_individ] fields, read in iteration
    order, exactly [0, 1, ..., n-1]. *)
Theorem reset_idx_individ_dense (w : world) :
  live w → NoDup (items (self w)) →
  ∃ w', reset_idx_individ w = Ok ((), w')
        ∧ self w' = self w
        ∧ idx_fields w' = dense (length (items (self w))).
Proof.
  intros Hlive Hnd. eexists; split; [reflexivity|]. split; [done|].
  unfold idx_fields, individuals, dense; simpl.
  apply list_eq; intros k. rewrite !list_lookup_fmap.
  destruct (items (self w) !! k) as [r|] eqn:Hk; simpl.
  - rewrite lookup_seq_lt by (by eapply lookup_lt_Some); simpl.
    f_equal. by rewrite (reset_loop_field _ 0%Z _ k).
  - apply lookup_ge_None in Hk. by rewrite lookup_seq_ge.
Qed.

Lemma reset_idx_individ_dense_witness :
  ∃ w', reset_idx_individ (mkWorld (mkPopulation [1; 0]%nat false None None None)
                                   [∅; ∅]) = Ok ((), w')
        ∧ idx_fields w' = [Some (of_int 0); Some (of_int 1)].
Proof.
  destruct (reset_idx_individ_dense
              (mkWorld (mkPopulation [1; 0]%nat false None None None) [∅; ∅]))
    as (w' & Hrun & _ & Hidx).
  - repeat constructor.
  - by apply (bool_decide_unpack _).
  - exists w'. by split.
Defined.

(** C6 (as stated) fails when the list holds the same individual twice:
    the second assignment overwrites the first, and both entries read 1. *)
Lemma reset_idx_individ_aliased :
  ∃ w', reset_idx_individ aliased = Ok ((), w')
        ∧ live aliased
        ∧ idx_fields w' = [Some (of_int 1); Some (of_int 1)]
        ∧ idx_fields w' ≠ dense 2.
Proof.
  eexists; split; [reflexivity|]. split; [|split].
  - repeat constructor.
  - by vm_compute.
  - by vm_compute.
Qed.

(** C8 (as amended): for a record without the field ['self'],
    [add_dict] appends one entry, a new dict holding the given fields;
    the entries held before, their order and their contents stay as
    they were, and so do the attributes of the population.  A record
    with the field ['self'] cannot be passed: the call raises
    [TypeError]. *)
Theorem add_dict_appends (data : individ) (w : world) :
  live w →
  (is_Some (data !! "self") → add_dict data w = Raise TypeError)
  ∧ (data !! "self" = None →
     ∃ w' r, add_dict data w = Ok ((), w')
             ∧ items (self w') = items (self w) ++ [r]
             ∧ (r ∉ items (self w))
             ∧ length (items (self w')) = S (length (items (self w)))
             ∧ individuals w' = individuals w ++ [data]
             ∧ last (individuals w') = Some data
             ∧ is_sorted (self w') = is_sorted (self w)
             ∧ live w').
Proof.
  intros Hlive. unfold live in Hlive. rewrite Forall_forall in Hlive.
  unfold add_dict. split; [by intros [v ->]|]. intros ->.
  exists (mkWorld (set_items (items (self w) ++ [length (dicts w)]) (self w))
                  (dicts w ++ [data])), (length (dicts w)).
  split; [done|]. split; [done|]. split.
  { intros Hin. apply Hlive in Hin. lia. }
  split; [simpl; rewrite length_app; simpl; lia|].
  assert (individuals
            (mkWorld (set_items (items (self w) ++ [length (dicts w)]) (self w))
                     (dicts w ++ [data]))
          = individuals w ++ [data]) as Hind.
  { unfold individuals; simpl. rewrite fmap_app; simpl. f_equal.
    - apply list_fmap_ext. intros k r Hk. unfold deref.
      rewrite lookup_app_l; [done|]. apply Hlive. by eapply list_elem_of_lookup_2.
    - unfold deref. by rewrite list_lookup_middle. }
  split; [done|]. split; [by rewrite Hind, last_snoc|]. split; [done|].
  unfold live; simpl. rewrite Forall_app, length_app; simpl. split.
  - apply Forall_forall. intros r Hr. apply Hlive in Hr. lia.
  - repeat constructor. lia.
Qed.

Lemma add_dict_appends_witness :
  ∃ w', add_dict {["score" := VNone]}
                 (mkWorld (mkPopulation [0]%nat true None None None) [∅])
        = Ok ((), w')
        ∧ individuals w' = [∅; {["score" := VNone]}].
Proof.
  destruct (add_dict_appends {["score" := VNone]}
              (mkWorld (mkPopulation [0]%nat true None None None) [∅]))
    as [_ Happend].
  - repeat constructor.
  - destruct (Happend eq_refl) as (w' & r & Hrun & _ & _ & _ & Hind & _).
    exists w'. by split.
Defined.

(** C8 (as stated) fails for a record that has a field named ['self']:
    the keyword collides with the parameter [self] of
    [add_dict(self, **data)], the call raises [TypeError] and nothing
    is appended. *)
Lemma add_dict_self_keyword :
  add_dict (<["self" := of_int 1]> (scored 2))
           (mkWorld (mkPopulation [0]%nat false None None None) [scored 3])
  = Raise TypeError
  ∧ live (mkWorld (mkPopulation [0]%nat false None None None) [scored 3]).
Proof. split; [by vm_compute|repeat constructor]. Qed.

(** C7: [get_empty_individ] changes nothing; on an empty population it
    returns [None], otherwise a dict that has exactly the keys of the
    first individual, hence of every individual with the same fields,
    each bound to [None]. *)
Theorem get_empty_individ_template (w : world) :
  match items (self w) with
  | [] => get_empty_individ w = Ok (None, w)
  | r :: _ =>
      ∃ d, get_empty_individ w = Ok (Some d, w)
           ∧ (∀ k, d !! k = (λ _, VNone) <$> deref (dicts w) r !! k)
           ∧ (∀ d0, d0 ∈ individuals w → dom d0 = dom (deref (dicts w) r) →
                    dom d = dom d0)
  end.
Proof.
  unfold get_empty_individ. destruct (items (self w)) as [|r rest]; [done|].
  eexists; split; [done|]. split.
  - intros k. unfold fromkeys. by rewrite lookup_fmap.
  - intros d0 _ ->. unfold fromkeys. by rewrite dom_fmap_L.
Qed.

Lemma keyed_spec h key its ks :
  keyed h key its = Ok ks →
  ks.*2 = its ∧ Forall (λ kr, has h key kr.1 kr.2) ks.
Proof.
  revert ks; induction its as [|r its IH]; intros ks; simpl.
  - intros [= <-]. by split.
  - unfold getitem. destruct (deref h r !! key) as [v|] eqn:Hv; simpl; [|done].
    destruct (keyed h key its) as [ks'|e]; simpl; [|done].
    intros [= <-]. destruct (IH ks') as [Hsnd Hall]; [done|].
    split; [by rewrite fmap_cons, Hsnd|]. by constructor.
Qed.

Lemma keyed_total h key its :
  Forall (λ r, is_Some (deref h r !! key)) its → is_ok (keyed h key its).
Proof.
  induction 1 as [|r its [v Hv] _ IH]; simpl; [done|].
  unfold getitem. rewrite Hv; simpl.
  by destruct (keyed h key its).
Qed.


Lemma sorted_keys rv (ks s : list (value * ref)) :
  sort lt_key rv ks = Ok s → Sorted (ordered rv) s.*1.
Proof.
  intros Hs. apply (Sorted_fmap fst (in_order lt_key rv) (ordered rv)).
  - intros x y. by destruct rv.
  - eapply sort_Sorted; [|done]. intros x y. apply py_lt_asym.
Qed.




End population_facts.

(** * Properties of the driver *)

Section driver_facts.
Import VEGA.
Context `{pkg : GaPackage}.

Lemma bind_call {A B} (ev : event) (o : op Hidden A) (f : A → M B) st tr :
  (call ev o ≫= f) (st, tr)
  = match o st with
    | Ok (a, st') => f a (st', tr ++ [ev])
    | Raise e => (Raise e, (st, tr ++ [ev]))
    end.
Proof.
  unfold mbind, M_bind, call; simpl. by destruct (o st) as [[a st']|e].
Qed.

Lemma call_eq {A} (ev : event) (o : op Hidden A) st tr :
  call ev o (st, tr)
  = match o st with
    | Ok (a, st') => (Ok a, (st', tr ++ [ev]))
    | Raise e => (Raise e, (st, tr ++ [ev]))
    end.
Proof. unfold call; simpl. by destruct (o st) as [[a st']|e]. Qed.

Lemma bind_eq {A B} (m : M A) (f : A → M B) s :
  (m ≫= f) s
  = match m s with
    | (Ok a, s') => f a s'
    | (Raise e, s') => (Raise e, s')
    end.
Proof. done. Qed.

(** One step of the loop makes the calls of a generation in order, all
    of them when it returns. *)
Lemma evolving_step_calls ops ga st tr :
  ∃ p, (evolving_step ops ga (st, tr)).2.2 = tr ++ p
       ∧ p `prefix_of` generation
       ∧ (is_ok (evolving_step ops ga (st, tr)).1 → p = generation).
Proof.
  unfold evolving_step.
  rewrite bind_call. destruct (selection_execute _ ga st) as [[g1 s1]|e]; simpl.
  2: { exists [ESelection]. split; [done|]. split; [|done]. by eexists. }
  rewrite bind_call. destruct (cross_execute _ g1 s1) as [[g2 s2]|e]; simpl.
  2: { exists [ESelection; ECrossover]. rewrite <-!(assoc_L (++)).
       split; [done|]. split; [|done]. by eexists. }
  rewrite bind_call. destruct (mutation_execute _ g2 s2) as [[g3 s3]|e]; simpl.
  2: { exists [ESelection; ECrossover; EMutation]. rewrite <-!(assoc_L (++)).
       split; [done|]. split; [|done]. by eexists. }
  rewrite bind_call.
  destruct (new_generation_execute _ g3 s3) as [[g4 s4]|e]; simpl.
  2: { exists [ESelection; ECrossover; EMutation; ENewGen].
       rewrite <-!(assoc_L (++)).
       split; [done|]. split; [|done]. by eexists. }
  rewrite bind_call. destruct (fitness_execute _ g4 s4) as [[g5 s5]|e]; simpl.
  2: { exists [ESelection; ECrossover; EMutation; ENewGen; EFitness].
       rewrite <-!(assoc_L (++)).
       split; [done|]. split; [|done]. by eexists. }
  rewrite call_eq. exists generation.
  destruct (update g5 s5) as [[g6 s6]|e]; simpl; rewrite <-!(assoc_L (++));
    by repeat split.
Qed.

Lemma replicate_generation_snoc (k : nat) :
  concat (replicate (S k) generation)
  = concat (replicate k generation) ++ generation.
Proof.
  induction k as [|k IH]; [done|].
  change (concat (replicate (S (S k)) generation))
    with (generation ++ concat (replicate (S k) generation)).
  rewrite IH at 1. by rewrite (assoc_L (++)).
Qed.

(** The loop makes whole generations, one after the other; only a step
    that raises is cut short. *)
Lemma main_loop_calls ops iters ga st tr :
  ∃ k p, (main_loop ops iters ga (st, tr)).2.2
         = tr ++ concat (replicate k generation) ++ p
         ∧ (k ≤ length iters)%nat
         ∧ p `prefix_of` generation
         ∧ (is_ok (main_loop ops iters ga (st, tr)).1 → p = []).
Proof.
  revert ga st tr; induction iters as [|i rest IH]; intros ga st tr; simpl.
  { exists 0%nat, []. simpl. rewrite (right_id_L [] (++)).
    repeat split; [lia|by eexists]. }
  rewrite bind_eq.
  destruct (evolving_step_calls ops ga st tr) as (p1 & Htr & Hpre & Hok).
  destruct (evolving_step ops ga (st, tr)) as [[g|e] [st1 tr1]];
    simpl in *.
  - rewrite Hok in Htr by done. subst tr1.
    case_bool_decide.
    + exists 1%nat, []. simpl. repeat split; [lia|by eexists].
    + destruct (IH g st1 (tr ++ generation)) as (k & p & Htr & Hk & Hp & Hok').
      exists (S k), p. rewrite Htr. split; [|repeat split; [lia|done..]].
      change (concat (replicate (S k) generation))
        with (generation ++ concat (replicate k generation)).
      by rewrite <-!(assoc_L (++)).
  - exists 0%nat, p1. subst tr1. repeat split; [lia|done..].
Qed.

Lemma num_objectives_of_calls self st tr :
  (num_objectives_of self (st, tr)).2 = (st, tr ++ probe self).
Proof.
  unfold num_objectives_of, probe. destruct (conditions self) as [cs|].
  - simpl. by rewrite (right_id_L [] (++)).
  - rewrite bind_call. unfold pure_op.
    destruct (call1 _ _) as [v|e]; simpl; [|done].
    unfold lift. by destruct (py_len v).
Qed.

Lemma prefix_body self n k p :
  p `prefix_of` generation →
  setup (is_gray self) n ++ first_generation
  ++ concat (replicate k generation) ++ p `prefix_of` body self n (S k).
Proof.
  intros Hp. unfold body. do 2 apply prefix_app.
  rewrite replicate_generation_snoc, <-(assoc_L (++)).
  apply prefix_app. by apply prefix_app_r.
Qed.

(** The calls up to the first generation. *)
Lemma first_generation_calls self st tr :
  ∃ n evs,
    (first_generation_of self (st, tr)).2.2 = tr ++ probe self ++ evs
    ∧ evs `prefix_of` setup (is_gray self) n ++ first_generation
    ∧ (is_ok (first_generation_of self (st, tr)).1 →
       evs = setup (is_gray self) n ++ first_generation)
    ∧ ((num_objectives_of self (st, tr)).1 = Ok n ∨ evs = []).
Proof.
  unfold first_generation_of. rewrite bind_eq.
  pose proof (num_objectives_of_calls self st tr) as Hprobe.
  destruct (num_objectives_of self (st, tr)) as [[no|e] [st0 tr0]];
    simpl in Hprobe; injection Hprobe as -> ->; simpl.
  2: { exists 0%Z, []. rewrite (right_id_L [] (++)).
       split; [done|]. split; [apply prefix_nil|]. split; [done|]. by right. }
  set (cls := if is_gray self then BinaryGrayPopulation else BinaryPopulation).
  exists no.
  rewrite bind_call. destruct (new cls st) as [[p0 s0]|e]; simpl.
  2: { exists (take 1 (setup (is_gray self) no)).
       rewrite <-!(assoc_L (++)). split; [done|].
       split; [by eexists|]. split; [done|]. by left. }
  rewrite bind_call. destruct (set_params cls _ _ _ p0 s0) as [[p1 s1]|e]; simpl.
  2: { exists (take 2 (setup (is_gray self) no)).
       rewrite <-!(assoc_L (++)). split; [done|].
       split; [by eexists|]. split; [done|]. by left. }
  rewrite bind_call.
  destruct (VEGAHyperbolaFitness _ _ _ _ _ s1) as [[f s2]|e]; simpl.
  2: { exists (take 3 (setup (is_gray self) no)).
       rewrite <-!(assoc_L (++)). split; [done|].
       split; [by eexists|]. split; [done|]. by left. }
  rewrite bind_call.
  destruct (VEGATournamentSelection no s2) as [[sl s3]|e]; simpl.
  2: { exists (take 4 (setup (is_gray self) no)).
       rewrite <-!(assoc_L (++)). split; [done|].
       split; [by eexists|]. split; [done|]. by left. }
  rewrite bind_call. destruct (OnePointCrossover s3) as [[c s4]|e]; simpl.
  2: { exists (take 5 (setup (is_gray self) no)).
       rewrite <-!(assoc_L (++)). split; [done|].
       split; [by eexists|]. split; [done|]. by left. }
  rewrite bind_call. destruct (BinStringMutation _ s4) as [[m s5]|e]; simpl.
  2: { exists (take 6 (setup (is_gray self) no)).
       rewrite <-!(assoc_L (++)). split; [done|].
       split; [by eexists|]. split; [done|]. by left. }
  rewrite bind_call. destruct (MultiNewGeneration _ s5) as [[ng s6]|e]; simpl.
  2: { exists (setup (is_gray self) no).
       rewrite <-!(assoc_L (++)). split; [done|].
       split; [by eexists|]. split; [done|]. by left. }
  rewrite bind_call. destruct (fill cls p1 s6) as [[p2 s7]|e]; simpl.
  2: { exists (setup (is_gray self) no ++ [EFill]).
       rewrite <-!(assoc_L (++)). split; [done|].
       split; [by eexists|]. split; [done|]. by left. }
  rewrite bind_call. destruct (fitness_execute f _ s7) as [[g0 s8]|e]; simpl.
  2: { exists (setup (is_gray self) no ++ [EFill; EFitness]).
       rewrite <-!(assoc_L (++)). split; [done|].
       split; [by eexists|]. split; [done|]. by left. }
  rewrite bind_call. exists (setup (is_gray self) no ++ first_generation).
  destruct (update g0 s8) as [[g1 s9]|e]; simpl;
    (rewrite <-!(assoc_L (++)); split; [done|];
     split; [reflexivity|]; split; [done|]; by left).
Qed.

(** The calls of any run of [optimize], returning or raising. *)
Lemma optimize_calls self st tr :
  ∃ n k evs,
    (optimize self (st, tr)).2.2 = tr ++ probe self ++ evs
    ∧ evs `prefix_of` body self n k
    ∧ (is_ok (optimize self (st, tr)).1 → evs = body self n k)
    ∧ ((num_objectives_of self (st, tr)).1 = Ok n ∨ evs = []).
Proof.
  unfold optimize. rewrite bind_eq.
  destruct (first_generation_calls self st tr)
    as (n & evs & Htr & Hpre & Hok & Hn).
  exists n.
  destruct (first_generation_of self (st, tr)) as [[[ops g1]|e] [s1 tr1]];
    simpl in *; subst tr1.
  2: { exists 0%nat, evs. split; [done|]. split; [|done].
       unfold body. rewrite (assoc_L (++)).
       by apply prefix_app_r. }
  assert ((num_objectives_of self (st, tr)).1 = Ok n) as Hn'.
  { destruct Hn as [?| ->]; [done|]. by specialize (Hok I). }
  rewrite Hok by done. clear Hok Hpre Hn.
  rewrite bind_eq.
  match goal with |- context [main_loop ops ?its g1 (s1, ?t)] =>
    destruct (main_loop_calls ops its g1 s1 t) as (k & p & Htr & _ & Hp & Hok);
    destruct (main_loop ops its g1 (s1, t)) as [[g2|e] [s2 tr2]]
  end; simpl in *; subst tr2.
  2: { exists (S k),
         (setup (is_gray self) n ++ first_generation
          ++ concat (replicate k generation) ++ p).
       rewrite <-!(assoc_L (++)). split; [done|].
       split; [|split; [done|by left]].
       exact (prefix_body self n k p Hp). }
  rewrite Hok, (right_id_L [] (++)) by done. exists k.
  unfold body, finish. destruct (is_print self).
  - rewrite bind_call.
    destruct (print_best_solution g2 s2) as [[[] s3]|e]; simpl;
      (eexists; split;
       [by rewrite <-!(assoc_L (++))
       |split; [reflexivity|split; [done|by left]]]).
  - simpl. rewrite (right_id_L [] (++) (concat _)). eexists; split;
      [by rewrite <-!(assoc_L (++))
      |split; [reflexivity|split; [done|by left]]].
Qed.

Lemma py_range_cons (i N : Z) :
  (i < N)%Z → py_range i N = i :: py_range (i + 1) N.
Proof.
  intros Hi. unfold py_range.
  replace (Z.to_nat (N - i)) with (S (Z.to_nat (N - (i + 1)))) by lia.
  simpl. f_equal; [lia|]. rewrite <-fmap_S_seq.
  rewrite <-list_fmap_compose. apply list_fmap_ext. intros k x _; simpl. lia.
Qed.

Lemma py_range_nil (i N : Z) : (N ≤ i)%Z → py_range i N = [].
Proof. intros Hi. unfold py_range. by replace (Z.to_nat (N - i)) with 0%nat by lia. Qed.

(** C1: in the step of loop index [i], which produces generation
    [i + 1] of [N], once [update()] has returned with the counter above
    the threshold, or in the last generation, the loop ends there: the
    result and the calls made are those of the step itself. *)
Theorem stop_after_update ops (N i : Z) ga s ga' s' :
  (1 ≤ i < N)%Z →
  evolving_step ops ga s = (Ok ga', s') →
  (num_generation_no_improve ga' > GaData.early_stop ga' ∨ i + 1 = N)%Z →
  main_loop ops (py_range i N) ga s = (Ok ga', s').
Proof.
  intros Hi Hstep Hstop. rewrite py_range_cons by lia. simpl.
  rewrite bind_eq, Hstep. case_bool_decide; [done|].
  destruct Hstop as [?| <-]; [done|]. by rewrite py_range_nil by lia.
Qed.

(** Otherwise the loop goes on with the next step. *)
Lemma continue_after_update ops (N i : Z) ga s ga' s' :
  (1 ≤ i < N)%Z →
  evolving_step ops ga s = (Ok ga', s') →
  (num_generation_no_improve ga' ≤ GaData.early_stop ga')%Z →
  main_loop ops (py_range i N) ga s
  = main_loop ops (py_range (i + 1) N) ga' s'.
Proof.
  intros Hi Hstep Hgo. rewrite py_range_cons by lia. simpl.
  rewrite bind_eq, Hstep. case_bool_decide; [lia|done].
Qed.

Lemma filter_phase_generations (k : nat) :
  filter is_phase (concat (replicate k generation))
  = concat (replicate k generation).
Proof.
  induction k as [|k IH]; [done|].
  change (concat (replicate (S k) generation))
    with (generation ++ concat (replicate k generation)).
  by rewrite filter_app, IH.
Qed.

Lemma filter_phase_body self n k :
  filter is_phase (body self n k)
  = first_generation ++ concat (replicate k generation).
Proof.
  unfold body. rewrite !filter_app, filter_phase_generations.
  assert (filter is_phase (finish self) = []) as ->.
  { unfold finish. by destruct (is_print self). }
  by rewrite (right_id_L [] (++)).
Qed.

Lemma filter_phase_probe self : filter is_phase (probe self) = [].
Proof. unfold probe. by destruct (conditions self). Qed.

Lemma prefix_filter (P : event → bool) (l1 l2 : list event) :
  l1 `prefix_of` l2 → filter P l1 `prefix_of` filter P l2.
Proof. intros [k ->]. rewrite filter_app. by apply prefix_app_r. Qed.

Lemma py_range_length (a b : Z) : length (py_range a b) = Z.to_nat (b - a).
Proof. unfold py_range. by rewrite length_fmap, length_seq. Qed.

(** A loop that returns has made one whole generation per entry of its
    history, returns the last of them, and has found the counter above
    the threshold in none of the others. *)
Lemma main_loop_history ops iters ga st tr gaF sF :
  main_loop ops iters ga (st, tr) = (Ok gaF, sF) →
  sF.2 = tr ++ concat (replicate (length (history ops iters ga (st, tr)))
                                 generation)
  ∧ (length (history ops iters ga (st, tr)) ≤ length iters)%nat
  ∧ ((iters = [] ∧ gaF = ga ∧ sF = (st, tr))
     ∨ ∃ gs, history ops iters ga (st, tr) = gs ++ [gaF]
             ∧ Forall (λ g, num_generation_no_improve g
                            ≤ GaData.early_stop g)%Z gs).
Proof.
  revert ga st tr; induction iters as [|i rest IH]; intros ga st tr.
  { simpl. intros [= <- <-]. simpl. rewrite (right_id_L [] (++)).
    split; [done|]. split; [lia|]. by left. }
  cbn [main_loop history]. rewrite bind_eq.
  destruct (evolving_step_calls ops ga st tr) as (p & Htr & _ & Hok).
  destruct (evolving_step ops ga (st, tr)) as [[g|e] [st1 tr1]]; [|done].
  simpl in Htr, Hok. rewrite Hok in Htr by done. subst tr1.
  case_bool_decide as Hbreak.
  - intros [= <- <-]. simpl.
    split; [done|]. split; [lia|]. right. exists []. by split.
  - intros Hloop.
    destruct (IH g st1 (tr ++ generation) Hloop) as (Htr' & Hlen & Hcase).
    split.
    { rewrite Htr'. cbn [length].
      change (concat (replicate (S ?n) generation))
        with (generation ++ concat (replicate n generation)).
      by rewrite <-!(assoc_L (++)). }
    split; [simpl; lia|]. right.
    destruct Hcase as [(-> & -> & _)|(gs & Hgs & Hall)].
    + exists []. by split.
    + exists (g :: gs). rewrite Hgs. split; [done|]. constructor; [lia|done].
Qed.

(** A loop that returns before its last generation has left by the
    test: the counter is above the threshold. *)
Lemma early_exit_by_break ops iters ga s gaF sF :
  main_loop ops iters ga s = (Ok gaF, sF) →
  (length (history ops iters ga s) < length iters)%nat →
  (num_generation_no_improve gaF > GaData.early_stop gaF)%Z.
Proof.
  revert ga s; induction iters as [|i rest IH]; intros ga s; simpl.
  { intros _ ?. lia. }
  rewrite bind_eq. destruct (evolving_step ops ga s) as [[g|e] s1]; [|done].
  case_bool_decide as Hbreak; simpl.
  - by intros [= <- <-] _.
  - intros Hloop Hlen. apply (IH g s1); [done|lia].
Qed.

(** A step of the loop returns exactly when the six calls return one
    after the other, each on the [ga_data] and the state the one before
    has left. *)
Lemma evolving_step_chain ops ga st tr ga' c' :
  evolving_step ops ga (st, tr) = (Ok ga', c') ↔
  ∃ g1 s1 g2 s2 g3 s3 g4 s4 g5 s5 s6,
    selection_execute (selection ops) ga st = Ok (g1, s1)
    ∧ cross_execute (cross ops) g1 s1 = Ok (g2, s2)
    ∧ mutation_execute (mutation ops) g2 s2 = Ok (g3, s3)
    ∧ new_generation_execute (new_generation ops) g3 s3 = Ok (g4, s4)
    ∧ fitness_execute (fitness_func ops) g4 s4 = Ok (g5, s5)
    ∧ update g5 s5 = Ok (ga', s6)
    ∧ c' = (s6, tr ++ generation).
Proof.
  unfold evolving_step. split.
  - rewrite bind_call.
    destruct (selection_execute _ ga st) as [[g1 s1]|e] eqn:H1; [|done].
    rewrite bind_call.
    destruct (cross_execute _ g1 s1) as [[g2 s2]|e] eqn:H2; [|done].
    rewrite bind_call.
    destruct (mutation_execute _ g2 s2) as [[g3 s3]|e] eqn:H3; [|done].
    rewrite bind_call.
    destruct (new_generation_execute _ g3 s3) as [[g4 s4]|e] eqn:H4; [|done].
    rewrite bind_call.
    destruct (fitness_execute _ g4 s4) as [[g5 s5]|e] eqn:H5; [|done].
    rewrite call_eq. destruct (update g5 s5) as [[g6 s6]|e] eqn:H6; [|done].
    intros [= <- <-]. exists g1, s1, g2, s2, g3, s3, g4, s4, g5, s5, s6.
    rewrite <-!(assoc_L (++)).
    do 6 (split; [done|]). done.
  - intros (g1 & s1 & g2 & s2 & g3 & s3 & g4 & s4 & g5 & s5 & s6
            & H1 & H2 & H3 & H4 & H5 & H6 & ->).
    rewrite bind_call, H1, bind_call, H2, bind_call, H3, bind_call, H4,
      bind_call, H5, call_eq, H6.
    by rewrite <-!(assoc_L (++)).
Qed.

(** The first generation: the objects of the run are constructed, then
    the population is filled, evaluated and recorded by [update()]. *)
Lemma first_generation_chain self st tr ops ga1 c1 :
  first_generation_of self (st, tr) = (Ok (ops, ga1), c1) →
  let cls := if is_gray self then BinaryGrayPopulation else BinaryPopulation in
  ∃ n p0 s0 p1 s1 f s2 sl s3 cr s4 mu s5 ng s6 p2 s7 g0 s8 s9,
    num_objectives_of self (st, tr) = (Ok n, (st, tr ++ probe self))
    ∧ new cls st = Ok (p0, s0)
    ∧ set_params cls (num_individ self) (gens self) (input_population self)
                 p0 s0 = Ok (p1, s1)
    ∧ VEGAHyperbolaFitness (obj_function self) (obj_value self)
        (input_data self) (penalty self) (conditions self) s1 = Ok (f, s2)
    ∧ VEGATournamentSelection n s2 = Ok (sl, s3)
    ∧ OnePointCrossover s3 = Ok (cr, s4)
    ∧ BinStringMutation (mutation_lvl self) s4 = Ok (mu, s5)
    ∧ MultiNewGeneration (transfer_parents self) s5 = Ok (ng, s6)
    ∧ fill cls p1 s6 = Ok (p2, s7)
    ∧ fitness_execute f
        (set_population p2
           (MultiGaData (num_generations self) (children_percent self)
                        (early_stop self))) s7 = Ok (g0, s8)
    ∧ update g0 s8 = Ok (ga1, s9)
    ∧ ops = mkOperators f sl cr mu ng
    ∧ c1 = (s9, tr ++ probe self ++ setup (is_gray self) n
                ++ first_generation).
Proof.
  unfold first_generation_of. rewrite bind_eq.
  pose proof (num_objectives_of_calls self st tr) as Hprobe.
  destruct (num_objectives_of self (st, tr)) as [[n|e] [st0 tr0]];
    simpl in Hprobe; injection Hprobe as -> ->; simpl; [|done].
  set (cls := if is_gray self then BinaryGrayPopulation else BinaryPopulation).
  rewrite bind_call.
  destruct (new cls st) as [[p0 s0]|e] eqn:H0; simpl; [|done].
  rewrite bind_call.
  destruct (set_params cls _ _ _ p0 s0) as [[p1 s1]|e] eqn:H1; simpl; [|done].
  rewrite bind_call.
  destruct (VEGAHyperbolaFitness _ _ _ _ _ s1) as [[f s2]|e] eqn:H2; simpl;
    [|done].
  rewrite bind_call.
  destruct (VEGATournamentSelection n s2) as [[sl s3]|e] eqn:H3; simpl; [|done].
  rewrite bind_call.
  destruct (OnePointCrossover s3) as [[cr s4]|e] eqn:H4; simpl; [|done].
  rewrite bind_call.
  destruct (BinStringMutation _ s4) as [[mu s5]|e] eqn:H5; simpl; [|done].
  rewrite bind_call.
  destruct (MultiNewGeneration _ s5) as [[ng s6]|e] eqn:H6; simpl; [|done].
  rewrite bind_call.
  destruct (fill cls p1 s6) as [[p2 s7]|e] eqn:H7; simpl; [|done].
  rewrite bind_call.
  destruct (fitness_execute f _ s7) as [[g0 s8]|e] eqn:H8; simpl; [|done].
  rewrite bind_call.
  destruct (update g0 s8) as [[g1 s9]|e] eqn:H9; simpl; [|done].
  intros [= <- <- <-].
  exists n, p0, s0, p1, s1, f, s2, sl, s3, cr, s4, mu, s5, ng, s6, p2, s7,
    g0, s8, s9.
  rewrite <-!(assoc_L (++)).
  do 12 (split; [done|]). done.
Qed.

(** C3: an iteration of the loop is the six calls Selection, Crossover,
    Mutation, NewGeneration, Fitness, update, made in this order, each
    on what the one before has left; the initial generation is fill,
    Fitness, update, made after the objects of the run are constructed.
    A run that returns has made the initial generation and then one
    such iteration per generation of the loop, all [num_generations - 1]
    of them unless the early stop has ended it, and returns the
    [ga_data] of the last; a run that raises stops somewhere along this
    sequence. *)
Theorem optimize_phase_order self st tr :
  (∀ ops ga ga' c',
     evolving_step ops ga (st, tr) = (Ok ga', c') ↔
     ∃ g1 s1 g2 s2 g3 s3 g4 s4 g5 s5 s6,
       selection_execute (selection ops) ga st = Ok (g1, s1)
       ∧ cross_execute (cross ops) g1 s1 = Ok (g2, s2)
       ∧ mutation_execute (mutation ops) g2 s2 = Ok (g3, s3)
       ∧ new_generation_execute (new_generation ops) g3 s3 = Ok (g4, s4)
       ∧ fitness_execute (fitness_func ops) g4 s4 = Ok (g5, s5)
       ∧ update g5 s5 = Ok (ga', s6)
       ∧ c' = (s6, tr ++ generation))
  ∧ (∀ ops ga1 c1,
       first_generation_of self (st, tr) = (Ok (ops, ga1), c1) →
       ∃ n p1 s6 p2 s7 g0 s8 s9,
         fill (if is_gray self then BinaryGrayPopulation
               else BinaryPopulation) p1 s6 = Ok (p2, s7)
         ∧ fitness_execute (fitness_func ops)
             (set_population p2
                (MultiGaData (num_generations self) (children_percent self)
                             (early_stop self))) s7 = Ok (g0, s8)
         ∧ update g0 s8 = Ok (ga1, s9)
         ∧ c1 = (s9, tr ++ probe self ++ setup (is_gray self) n
                     ++ first_generation))
  ∧ (∀ ops ga1 c1 ga c,
       first_generation_of self (st, tr) = (Ok (ops, ga1), c1) →
       optimize self (st, tr) = (Ok ga, c) →
       c.2 = c1.2
             ++ concat (replicate
                          (length (history ops
                                     (py_range 1 (GaData.num_generations ga1))
                                     ga1 c1))
                          generation)
             ++ finish self
       ∧ last (ga1 :: history ops (py_range 1 (GaData.num_generations ga1))
                              ga1 c1) = Some ga
       ∧ (length (history ops (py_range 1 (GaData.num_generations ga1))
                          ga1 c1)
          = Z.to_nat (GaData.num_generations ga1 - 1)
          ∨ (num_generation_no_improve ga > GaData.early_stop ga)%Z))
  ∧ ∃ k evs,
      (optimize self (st, tr)).2.2 = tr ++ evs
      ∧ filter is_phase evs
        `prefix_of` first_generation ++ concat (replicate k generation)
      ∧ (is_ok (optimize self (st, tr)).1 →
         filter is_phase evs
         = first_generation ++ concat (replicate k generation)).
Proof.
  split; [intros; apply evolving_step_chain|]. split; [|split].
  - intros ops ga1 c1 Hfirst.
    destruct (first_generation_chain _ _ _ _ _ _ Hfirst)
      as (n & p0 & s0 & p1 & s1 & f & s2 & sl & s3 & cr & s4 & mu & s5 & ng
          & s6 & p2 & s7 & g0 & s8 & s9 & _ & _ & _ & _ & _ & _ & _ & _
          & Hfill & Hfit & Hup & -> & ->).
    by exists n, p1, s6, p2, s7, g0, s8, s9.
  - intros ops ga1 [st1 tr1] ga c Hfirst. unfold optimize.
    rewrite bind_eq, Hfirst. simpl. rewrite bind_eq.
    destruct (main_loop ops (py_range 1 (GaData.num_generations ga1)) ga1
                (st1, tr1)) as [[g2|e] [st2 tr2]] eqn:Hloop; [|done].
    destruct (main_loop_history _ _ _ _ _ _ _ Hloop) as (Htr & Hlen & Hcase).
    simpl in Htr. intros Hrun.
    assert (ga = g2 ∧ c.2 = tr2 ++ finish self) as [-> ->].
    { revert Hrun. unfold finish. destruct (is_print self).
      - rewrite bind_call.
        destruct (print_best_solution g2 st2) as [[[] st3]|e]; simpl; [|done].
        by intros [= <- <-].
      - simpl. intros [= <- <-]. by rewrite (right_id_L [] (++)). }
    split; [by rewrite Htr, <-!(assoc_L (++))|]. split.
    + destruct Hcase as [(Hnil & -> & _)|(gs & -> & _)].
      * by rewrite Hnil.
      * by rewrite last_cons, last_snoc.
    + destruct (decide (length (history ops
                          (py_range 1 (GaData.num_generations ga1)) ga1
                          (st1, tr1))
                        = Z.to_nat (GaData.num_generations ga1 - 1)))
        as [Heq|Hne]; [by left|right].
      apply (early_exit_by_break _ _ _ _ _ _ Hloop).
      rewrite py_range_length in Hlen |- *. lia.
  - destruct (optimize_calls self st tr) as (n & k & evs & Htr & Hpre & Hok & _).
    exists k, (probe self ++ evs). split; [done|].
    rewrite filter_app, filter_phase_probe, (left_id_L [] (++)).
    rewrite <-(filter_phase_body self n k).
    split; [by apply prefix_filter|]. intros H. by rewrite Hok.
Qed.

Lemma elem_of_generations (k : nat) (e : event) :
  e ∈ concat (replicate k generation) → e ∈ generation.
Proof.
  induction k as [|k IH]; [by intros ?%elem_of_nil|].
  change (concat (replicate (S k) generation))
    with (generation ++ concat (replicate k generation)).
  rewrite elem_of_app. by intros [?|?%IH].
Qed.

Lemma body_events self n k e :
  e ∈ body self n k →
  e ∈ setup (is_gray self) n ∨ is_phase e ∨ e = EPrint.
Proof.
  unfold body. rewrite !elem_of_app. intros [He|[He|[He|He]]].
  - by left.
  - right; left. unfold first_generation in He.
    repeat (apply elem_of_cons in He as [->|He]; [done|]).
    by apply elem_of_nil in He.
  - right; left. apply elem_of_generations in He. unfold generation in He.
    repeat (apply elem_of_cons in He as [->|He]; [done|]).
    by apply elem_of_nil in He.
  - right; right. unfold finish in He. destruct (is_print self).
    + by apply list_elem_of_singleton in He.
    + by apply elem_of_nil in He.
Qed.

(** C4: with [conditions], the number of objectives is the number of
    ['optimize'] entries and the objective function is not called;
    without, it is the length of the sequence the probe call returns;
    this is the number the selection is constructed with, which it is
    in every run that returns. *)
Theorem num_objectives_derivation self st tr :
  (∀ cs, conditions self = Some cs →
     num_objectives_of self (st, tr)
     = (Ok (Z.of_nat (length (filter (.= "optimize") cs))), (st, tr)))
  ∧ (∀ kind out, conditions self = None →
       call1 (obj_function self) (replicate (length (gens self)) 0%Qc)
       = Ok (VSeq kind out) →
       num_objectives_of self (st, tr)
       = (Ok (Z.of_nat (length out)),
          (st, tr ++ [EObjective (replicate (length (gens self)) 0%Qc)])))
  ∧ ∃ evs, (optimize self (st, tr)).2.2 = tr ++ probe self ++ evs
           ∧ (∀ n, ENewSelection n ∈ evs →
                   (num_objectives_of self (st, tr)).1 = Ok n)
           ∧ (is_ok (optimize self (st, tr)).1 →
              ∃ n, ENewSelection n ∈ evs).
Proof.
  split; [|split].
  - intros cs Hcs. unfold num_objectives_of. by rewrite Hcs.
  - intros kind out Hcs Hout. unfold num_objectives_of. rewrite Hcs.
    rewrite bind_call. unfold pure_op. by rewrite Hout.
  - destruct (optimize_calls self st tr) as (n & k & evs & Htr & Hpre & Hok & Hn).
    exists evs. split; [done|]. split.
    2: { intros ->%Hok. exists n. unfold body, setup.
         apply elem_of_app. left. repeat constructor. }
    intros n' Hin.
    destruct Hn as [Hn| ->]; [|by apply elem_of_nil in Hin].
    rewrite Hn. f_equal. destruct Hpre as [rest Hrest].
    destruct (body_events self n k (ENewSelection n')) as [He|[He|He]];
      [rewrite Hrest; apply elem_of_app; by left| |done..].
    unfold setup in He.
    repeat (apply elem_of_cons in He as [He|He]; [by simplify_eq|]).
    by apply elem_of_nil in He.
Qed.

(** C9: without [conditions] the first call of a run is the objective
    function on [[0]*len(gens)], and the driver makes no other call of
    it; when the function takes two arguments, or returns something
    that has no length, the run raises there, before any population is
    created. *)
Theorem probe_before_population self st tr :
  conditions self = None →
  (∃ rest, (optimize self (st, tr)).2.2
           = tr ++ EObjective (replicate (length (gens self)) 0%Qc) :: rest
           ∧ Forall (λ e, ∀ a, e ≠ EObjective a) rest)
  ∧ ((∃ f, obj_function self = Fn2 f)
     ∨ (∃ v, call1 (obj_function self) (replicate (length (gens self)) 0%Qc)
             = Ok v ∧ ∀ kind l, v ≠ VSeq kind l) →
     optimize self (st, tr)
     = (Raise TypeError,
        (st, tr ++ [EObjective (replicate (length (gens self)) 0%Qc)]))).
Proof.
  intros Hcs. split.
  - destruct (optimize_calls self st tr) as (n & k & evs & Htr & Hpre & _).
    exists evs. split.
    + rewrite Htr. unfold probe. by rewrite Hcs.
    + apply Forall_forall. intros e He a ->. destruct Hpre as [rest Hrest].
      destruct (body_events self n k (EObjective a)) as [H|[H|H]];
        [rewrite Hrest; apply elem_of_app; by left| |done..].
      unfold setup in H.
      repeat (apply elem_of_cons in H as [H|H]; [done|]).
      by apply elem_of_nil in H.
  - intros Hbad. unfold optimize, first_generation_of. rewrite !bind_eq.
    unfold num_objectives_of. rewrite Hcs, bind_call. unfold pure_op.
    destruct Hbad as [[f ->]|(v & -> & Hv)]; simpl; [done|].
    unfold lift. destruct v as [| | |kind l]; simpl; [done..|].
    by destruct (Hv kind l).
Qed.

(** While every generation is one without improvement the counter
    grows by one per step, and the loop ends with the first step that
    takes it above the threshold. *)
Lemma no_improvement_bound ops iters ga s gaF sF :
  (num_generation_no_improve ga ≤ GaData.early_stop ga)%Z →
  chain no_improvement ga (history ops iters ga s) →
  main_loop ops iters ga s = (Ok gaF, sF) →
  num_generation_no_improve gaF
  = (num_generation_no_improve ga
     + Z.of_nat (length (history ops iters ga s)))%Z
  ∧ GaData.early_stop gaF = GaData.early_stop ga
  ∧ (num_generation_no_improve gaF ≤ GaData.early_stop ga + 1)%Z
  ∧ (length (history ops iters ga s) ≤ length iters)%nat
  ∧ ((length (history ops iters ga s) < length iters)%nat →
     num_generation_no_improve gaF = (GaData.early_stop ga + 1)%Z).
Proof.
  revert ga s; induction iters as [|i rest IH]; intros ga s Hle; simpl.
  { intros _ [= <- <-]. simpl. repeat split; lia. }
  rewrite bind_eq.
  destruct (evolving_step ops ga s) as [[g|e] s1]; [|done].
  case_bool_decide as Hbreak; simpl.
  - intros [[Hc He] _] [= <- <-]. repeat split; lia.
  - intros [[Hc He] Hchain] Hloop.
    destruct (IH g s1) as (Hc' & He' & Hb & Hk & Hshort);
      [lia|done|done|].
    repeat split; lia.
Qed.

(** C2 (as amended): with [early_stop=3], when every generation of the
    loop is one without improvement, the loop runs at most 4
    generations and ends with the counter at most at 4, whatever
    [num_generations] is; it ends short of the [num_generations - 1]
    generations only with the counter at 4. *)
Theorem early_stop_three ops (N : Z) ga s gaF sF :
  GaData.early_stop ga = 3%Z →
  (0 ≤ num_generation_no_improve ga ≤ 3)%Z →
  chain no_improvement ga (history ops (py_range 1 N) ga s) →
  main_loop ops (py_range 1 N) ga s = (Ok gaF, sF) →
  (length (history ops (py_range 1 N) ga s) ≤ 4)%nat
  ∧ (num_generation_no_improve gaF ≤ 4)%Z
  ∧ num_generation_no_improve gaF
    = (num_generation_no_improve ga
       + Z.of_nat (length (history ops (py_range 1 N) ga s)))%Z
  ∧ ((length (history ops (py_range 1 N) ga s) < Z.to_nat (N - 1))%nat →
     num_generation_no_improve gaF = 4%Z).
Proof.
  intros He Hc Hchain Hloop.
  destruct (no_improvement_bound ops (py_range 1 N) ga s gaF sF)
    as (Hc' & _ & Hb & _ & Hs); [lia|done|done|].
  rewrite He in *. repeat split; try lia.
  intros Hlt. apply Hs. unfold py_range.
  by rewrite length_fmap, length_seq.
Qed.

(** When the counter grows by at most one per generation and the
    threshold is the number of generations, the test of the loop never
    succeeds. *)
Lemma counted_never_breaks ops (N : Z) (n : nat) :
  ∀ i ga s gaF sF,
    n = Z.to_nat (N - i) → (1 ≤ i)%Z →
    GaData.early_stop ga = N →
    (num_generation_no_improve ga ≤ i)%Z →
    chain counted ga (history ops (py_range i N) ga s) →
    main_loop ops (py_range i N) ga s = (Ok gaF, sF) →
    length (history ops (py_range i N) ga s) = n
    ∧ Forall (λ g, num_generation_no_improve g ≤ GaData.early_stop g)%Z
             (history ops (py_range i N) ga s).
Proof.
  induction n as [|n IH]; intros i ga s gaF sF Hn Hi He Hc.
  { rewrite py_range_nil by lia. by split. }
  rewrite py_range_cons by lia. simpl. rewrite bind_eq.
  destruct (evolving_step ops ga s) as [[g|e] s1]; [|done].
  intros [[Hg Heg] Hchain].
  rewrite bool_decide_false in * by lia.
  intros Hloop.
  destruct (IH (i + 1)%Z g s1 gaF sF) as [Hlen Hall];
    [lia|lia|congruence|lia|done|done|].
  split; [simpl; by rewrite Hlen|]. constructor; [lia|done].
Qed.

(** C10: [early_stop=None] makes the threshold [num_generations], and
    this is the threshold [ga_data] is created with, the counter at 0.
    A loop that ends before its last generation has the counter above
    [num_generations].  In a loop entered with this threshold and a
    counter that has counted the one generation so far, where each
    generation adds one to the counter or resets it, the test never
    succeeds: a loop that returns has run all the
    [num_generations - 1] generations. *)
Theorem early_stop_none_disabled (num_generations num_individ : Z)
    (gens : list (Qc * Qc * Qc)) (obj_function : callable)
    (obj_value : option Qc) (input_data : value)
    (penalty : option BasePenalty) (conditions : option (list string))
    (is_gray : bool) (children_percent : Qc)
    (input_population : option (list (list Qc))) (tournament_size : Z)
    (mutation_lvl : string + Qc) (transfer_parents : string)
    (is_print : bool) :
  let self := __init__ num_generations num_individ gens obj_function
                obj_value input_data penalty conditions is_gray
                children_percent None input_population tournament_size
                mutation_lvl transfer_parents is_print in
  let ga_data := MultiGaData (VEGA.num_generations self)
                   (VEGA.children_percent self) (early_stop self) in
  early_stop self = num_generations
  ∧ GaData.early_stop ga_data = num_generations
  ∧ GaData.num_generations ga_data = num_generations
  ∧ num_generation_no_improve ga_data = 0%Z
  ∧ (∀ ops ga s gaF sF,
       GaData.early_stop gaF = num_generations →
       main_loop ops (py_range 1 num_generations) ga s = (Ok gaF, sF) →
       (length (history ops (py_range 1 num_generations) ga s)
        < Z.to_nat (num_generations - 1))%nat →
       (num_generation_no_improve gaF > num_generations)%Z)
  ∧ ∀ ops ga s gaF sF,
      GaData.early_stop ga = num_generations →
      (num_generation_no_improve ga ≤ 1)%Z →
      chain counted ga (history ops (py_range 1 num_generations) ga s) →
      main_loop ops (py_range 1 num_generations) ga s = (Ok gaF, sF) →
      length (history ops (py_range 1 num_generations) ga s)
      = Z.to_nat (num_generations - 1)
      ∧ Forall (λ g, num_generation_no_improve g ≤ GaData.early_stop g)%Z
               (history ops (py_range 1 num_generations) ga s).
Proof.
  simpl. split; [done|]. split; [done|]. split; [done|]. split; [done|].
  split.
  - intros ops ga s gaF sF <- Hloop Hlen.
    apply (early_exit_by_break ops _ ga s gaF sF Hloop).
    unfold py_range. by rewrite length_fmap, length_seq.
  - intros ops ga s gaF sF He Hc Hchain Hloop.
    by eapply counted_never_breaks.
Qed.

End driver_facts.

(** * Runs of the reference instance *)

Section reference_runs.
Import VEGA Reference.
Existing Instance Reference.package.

Lemma stop_after_update_witness :
  ∃ ga' s',
    evolving_step (start (constant_run 2 (Some 3%Z))).1.1
                  (start (constant_run 2 (Some 3%Z))).1.2
                  (start (constant_run 2 (Some 3%Z))).2 = (Ok ga', s')
    ∧ main_loop (start (constant_run 2 (Some 3%Z))).1.1 (py_range 1 2)
                (start (constant_run 2 (Some 3%Z))).1.2
                (start (constant_run 2 (Some 3%Z))).2 = (Ok ga', s').
Proof.
  destruct (evolving_step (start (constant_run 2 (Some 3%Z))).1.1
              (start (constant_run 2 (Some 3%Z))).1.2
              (start (constant_run 2 (Some 3%Z))).2) as [[ga'|e] s'] eqn:E.
  - exists ga', s'. split; [done|].
    apply (stop_after_update _ 2 1); [lia|exact E|right; lia].
  - vm_compute in E. discriminate E.
Defined.

Lemma optimize_phase_order_witness :
  ∃ ga c,
    run (constant_run 3 (Some 3%Z)) = (Ok ga, c)
    ∧ c.2 = (start (constant_run 3 (Some 3%Z))).2.2
            ++ concat (replicate 2 generation)
    ∧ last ((start (constant_run 3 (Some 3%Z))).1.2
            :: history (start (constant_run 3 (Some 3%Z))).1.1 (py_range 1 3)
                       (start (constant_run 3 (Some 3%Z))).1.2
                       (start (constant_run 3 (Some 3%Z))).2) = Some ga.
Proof.
  assert (is_ok (first_generation_of (constant_run 3 (Some 3%Z))
                   (mkState [] (), [])).1) as HF by (vm_compute; exact I).
  assert (is_ok (run (constant_run 3 (Some 3%Z))).1) as HO
    by (vm_compute; exact I).
  assert (GaData.num_generations (start (constant_run 3 (Some 3%Z))).1.2
          = 3%Z) as HN by (vm_compute; reflexivity).
  assert (length (history (start (constant_run 3 (Some 3%Z))).1.1
                    (py_range 1 3)
                    (start (constant_run 3 (Some 3%Z))).1.2
                    (start (constant_run 3 (Some 3%Z))).2) = 2%nat) as HL
    by (vm_compute; reflexivity).
  unfold start in *.
  destruct (first_generation_of (constant_run 3 (Some 3%Z))
              (mkState [] (), [])) as [[[ops ga1]|e] c1] eqn:F;
    [|destruct HF].
  cbn [fst snd] in HN, HL |- *.
  destruct (run (constant_run 3 (Some 3%Z))) as [[ga|e] c] eqn:O;
    [|destruct HO].
  destruct (proj1 (proj2 (proj2
              (optimize_phase_order (constant_run 3 (Some 3%Z))
                 (mkState [] ()) []))) ops ga1 c1 ga c F O)
    as (Hc & Hlast & _).
  rewrite HN in Hc, Hlast. rewrite HL in Hc.
  exists ga, c. split; [reflexivity|]. split; [|exact Hlast].
  rewrite Hc. change (finish (constant_run 3 (Some 3%Z))) with (@nil event).
  by rewrite (right_id_L [] (++)).
Defined.

Lemma early_stop_three_witness :
  ∃ gaF sF,
    main_loop (start (constant_run 10 (Some 3%Z))).1.1 (py_range 1 10)
              (start (constant_run 10 (Some 3%Z))).1.2
              (start (constant_run 10 (Some 3%Z))).2 = (Ok gaF, sF)
    ∧ (num_generation_no_improve gaF ≤ 4)%Z.
Proof.
  destruct (main_loop (start (constant_run 10 (Some 3%Z))).1.1 (py_range 1 10)
              (start (constant_run 10 (Some 3%Z))).1.2
              (start (constant_run 10 (Some 3%Z))).2) as [[gaF|e] sF] eqn:E.
  - exists gaF, sF. split; [done|].
    refine (proj1 (proj2 (early_stop_three _ 10 _ _ gaF sF _ _ _ E))).
    + vm_compute. reflexivity.
    + vm_compute. split; discriminate.
    + vm_compute. repeat split.
  - vm_compute in E. discriminate E.
Defined.

(** C2 (as stated) fails: with [early_stop=3], [num_generations=10] and
    a constant objective the first generation is followed by four
    generations of the loop, each without improvement, and the run
    ends with the counter at 4. *)
Lemma early_stop_three_exceeded :
  num_generation_no_improve <$> (run (constant_run 10 (Some 3%Z))).1 = Ok 4%Z
  ∧ num_generation <$> (run (constant_run 10 (Some 3%Z))).1 = Ok 5%Z
  ∧ filter is_phase (run (constant_run 10 (Some 3%Z))).2.2
    = first_generation ++ concat (replicate 4 generation)
  ∧ (λ g, bool_decide (num_generation_no_improve g ≤ 3)%Z)
      <$> (run (constant_run 10 (Some 3%Z))).1 = Ok false.
Proof. vm_compute. repeat split. Qed.

Lemma early_stop_none_disabled_witness :
  ∃ gaF sF,
    main_loop (start (constant_run 6 None)).1.1 (py_range 1 6)
              (start (constant_run 6 None)).1.2
              (start (constant_run 6 None)).2 = (Ok gaF, sF)
    ∧ length (history (start (constant_run 6 None)).1.1 (py_range 1 6)
                      (start (constant_run 6 None)).1.2
                      (start (constant_run 6 None)).2) = 5%nat.
Proof.
  destruct (main_loop (start (constant_run 6 None)).1.1 (py_range 1 6)
              (start (constant_run 6 None)).1.2
              (start (constant_run 6 None)).2) as [[gaF|e] sF] eqn:E.
  - exists gaF, sF. split; [done|].
    refine (proj1 (proj2 (proj2 (proj2 (proj2 (proj2
              (early_stop_none_disabled 6 4 [(0%Qc, Q2Qc 7, 1%Qc)]
                 (constant (Q2Qc 2)) None VNone None None false
                 (Q2Qc (95 # 100)) None 5 (inl "normal") "best" false)))))
              _ _ _ gaF sF _ _ _ E)).
    + vm_compute. reflexivity.
    + vm_compute. discriminate.
    + vm_compute. repeat split; by right.
  - vm_compute in E. discriminate E.
Defined.

Lemma probe_before_population_witness :
  run (demo 10 (Some 3%Z) two_arguments None)
  = (Raise TypeError, (mkState [] (), [EObjective [0%Qc]])).
Proof.
  apply (proj2 (probe_before_population
                  (demo 10 (Some 3%Z) two_arguments None)
                  (mkState [] ()) [] eq_refl)).
  left. by eexists.
Defined.

End reference_runs.

(** * More on the population container *)

Section population_more.
Import Population.

Lemma reset_loop_lookup its i h r :
  reset_loop its i h !! r
  = match last_pos r its i with
    | Some k => <["idx_individ" := of_int k]> <$> h !! r
    | None => h !! r
    end.
Proof.
  revert i h; induction its as [|r0 rest IH]; intros i h; simpl; [done|].
  rewrite IH, list_lookup_alter.
  destruct (last_pos r rest (i + 1)) as [k|]; case_decide; subst;
    rewrite ?decide_True, ?decide_False by done; try done.
  rewrite <-option_fmap_compose. apply option_fmap_ext.
  intros d; simpl. by rewrite insert_insert_eq.
Qed.

Lemma last_pos_None r its i : last_pos r its i = None → r ∉ its.
Proof.
  revert i; induction its as [|r0 rest IH]; intros i; simpl.
  { intros _. apply not_elem_of_nil. }
  destruct (last_pos r rest (i + 1)) eqn:Hrest; [done|].
  destruct (decide (r0 = r)); [done|]. intros _.
  apply not_elem_of_cons. split; [done|]. by eapply IH.
Qed.

Lemma last_pos_Some r its i k :
  last_pos r its i = Some k →
  ∃ j, k = (i + Z.of_nat j)%Z ∧ its !! j = Some r
       ∧ ∀ j', (j < j')%nat → its !! j' ≠ Some r.
Proof.
  revert i; induction its as [|r0 rest IH]; intros i; simpl; [done|].
  destruct (last_pos r rest (i + 1)) as [k'|] eqn:Hrest.
  - intros [= ->]. destruct (IH _ Hrest) as (j & -> & Hj & Hlast).
    exists (S j). split; [lia|]. split; [done|].
    intros [|j'] ?; [lia|]. simpl. apply Hlast. lia.
  - destruct (decide (r0 = r)) as [->|]; [|done]. intros [= <-].
    exists 0%nat. split; [lia|]. split; [done|].
    intros [|j'] ? Hj'; [lia|]. simpl in Hj'.
    apply last_pos_None in Hrest. destruct Hrest.
    by eapply list_elem_of_lookup_2.
Qed.

Lemma last_pos_elem_of r its i : r ∈ its → is_Some (last_pos r its i).
Proof.
  intros Hr. destruct (last_pos r its i) eqn:H; [by eexists|].
  by apply last_pos_None in H.
Qed.

(** X1: [reset_idx_individ] never raises and writes nothing but the
    field [idx_individ] of the individuals the population holds: the
    population object, the other fields of every dict and the dicts
    the population does not hold are as before. *)
Theorem reset_idx_individ_frame (w : world) :
  ∃ w', reset_idx_individ w = Ok ((), w')
        ∧ self w' = self w
        ∧ length (dicts w') = length (dicts w)
        ∧ (∀ r, r ∉ items (self w) → dicts w' !! r = dicts w !! r)
        ∧ (∀ r key, key ≠ "idx_individ" →
             deref (dicts w') r !! key = deref (dicts w) r !! key).
Proof.
  eexists; split; [reflexivity|]. simpl. split; [done|].
  assert (∀ r, r ∉ items (self w) →
            reset_loop (items (self w)) 0 (dicts w) !! r = dicts w !! r) as Hout.
  { intros r Hr. rewrite reset_loop_lookup.
    destruct (last_pos r (items (self w)) 0) as [k|] eqn:Hk; [|done].
    apply last_pos_Some in Hk as (j & _ & Hj & _).
    destruct Hr. by eapply list_elem_of_lookup_2. }
  split; [|split; [done|]].
  - clear Hout. generalize 0%Z. generalize (dicts w).
    induction (items (self w)) as [|r its IH]; intros h i; simpl; [done|].
    by rewrite IH, length_alter.
  - intros r key Hkey. unfold deref. rewrite reset_loop_lookup.
    destruct (last_pos r (items (self w)) 0) as [k|]; [|done].
    destruct (dicts w !! r) as [d|]; simpl; [|done].
    by rewrite lookup_insert_ne.
Qed.

(** X2: after [reset_idx_individ] on any population, also one that
    holds an individual more than once, the [idx_individ] read at a
    position is the last position at which the same individual is
    held. *)
Theorem reset_idx_individ_last_occurrence (w : world) (k : nat) (r : ref) :
  live w → items (self w) !! k = Some r →
  ∃ w' j, reset_idx_individ w = Ok ((), w')
          ∧ (k ≤ j)%nat
          ∧ items (self w) !! j = Some r
          ∧ (∀ j', (j < j')%nat → items (self w) !! j' ≠ Some r)
          ∧ idx_fields w' !! k = Some (Some (of_int (Z.of_nat j))).
Proof.
  intros Hlive Hk.
  destruct (last_pos_elem_of r (items (self w)) 0) as [z Hz].
  { by eapply list_elem_of_lookup_2. }
  destruct (last_pos_Some _ _ _ _ Hz) as (j & -> & Hj & Hlast).
  eexists _, j. split; [reflexivity|]. split.
  { destruct (decide (k ≤ j)%nat); [done|]. destruct (Hlast k); [lia|done]. }
  split; [done|]. split; [done|].
  unfold idx_fields, individuals; simpl. rewrite !list_lookup_fmap, Hk; simpl.
  do 2 f_equal. unfold deref. rewrite reset_loop_lookup, Hz.
  unfold live in Hlive. rewrite Forall_forall in Hlive.
  destruct (lookup_lt_is_Some_2 (dicts w) r) as [d Hd].
  { apply Hlive. by eapply list_elem_of_lookup_2. }
  unfold ref in *. rewrite Hd; simpl.
  by rewrite lookup_insert_eq.
Qed.

(** X3: a second [reset_idx_individ] changes nothing. *)
Theorem reset_idx_individ_idempotent (w : world) :
  ∃ w', reset_idx_individ w = Ok ((), w')
        ∧ reset_idx_individ w' = Ok ((), w').
Proof.
  eexists; split; [reflexivity|]. unfold reset_idx_individ; simpl.
  do 3 f_equal. apply list_eq; intros r. rewrite !reset_loop_lookup.
  destruct (last_pos r (items (self w)) 0) as [k|]; [|done].
  rewrite <-option_fmap_compose. apply option_fmap_ext.
  intros d; simpl. by rewrite insert_insert_eq.
Qed.

Lemma reset_loop_length its i h :
  length (reset_loop its i h) = length h.
Proof.
  revert i h; induction its as [|r rest IH]; intros i h; simpl; [done|].
  by rewrite IH, length_alter.
Qed.

Lemma reset_dense (w : world) :
  live w → NoDup (items (self w)) →
  idx_fields (mkWorld (self w) (reset_loop (items (self w)) 0 (dicts w)))
  = dense (length (items (self w))).
Proof.
  intros Hlive Hnd. unfold idx_fields, individuals, dense; simpl.
  apply list_eq; intros k. rewrite !list_lookup_fmap.
  destruct (items (self w) !! k) as [r|] eqn:Hk; simpl.
  - rewrite lookup_seq_lt by (by eapply lookup_lt_Some); simpl.
    f_equal. by rewrite (reset_loop_field _ 0%Z _ k).
  - apply lookup_ge_None in Hk. by rewrite lookup_seq_ge.
Qed.

Lemma sort_by_dict_inv key rv w w' :
  sort_by_dict key rv w = Ok ((), w') →
  ∃ ks s, keyed (dicts w) key (items (self w)) = Ok ks
          ∧ sort lt_key rv ks = Ok s
          ∧ items (self w') = s.*2
          ∧ dicts w' = dicts w
          ∧ w' = mkWorld (if decide (key = "score")
                          then set_is_sorted true (set_items s.*2 (self w))
                          else set_items s.*2 (self w)) (dicts w).
Proof.
  unfold sort_by_dict.
  destruct (keyed (dicts w) key (items (self w))) as [ks|e]; simpl; [|done].
  destruct (sort lt_key rv ks) as [s|e] eqn:Hs; simpl; [|done].
  intros [= <-]. exists ks, s. split; [done|]. split; [done|].
  split; [|done]. by destruct (decide (key = "score")).
Qed.

Lemma built_distinct (w : world) :
  built w → live w ∧ NoDup (items (self w)).
Proof.
  induction 1 as [p h Hp|w data w' _ [Hlive Hnd] Hadd
                 |w key rv w' _ [Hlive Hnd] Hsort
                 |w w' _ [Hlive Hnd] Hreset|w d w' _ IH Hget].
  - unfold live; simpl. rewrite Hp. split; constructor.
  - unfold add_dict in Hadd. destruct (data !! "self"); [done|].
    injection Hadd as <-. unfold live in *; simpl.
    rewrite Forall_forall in Hlive. split.
    + rewrite Forall_app, length_app; simpl. split.
      * apply Forall_forall. intros r Hr. apply Hlive in Hr. lia.
      * repeat constructor. lia.
    + apply NoDup_app. split; [done|]. split; [|apply NoDup_singleton].
      intros r Hr ->%list_elem_of_singleton. apply Hlive in Hr. lia.
  - apply sort_by_dict_inv in Hsort
      as (ks & s & Hks & Hs & Hitems & Hdicts & _).
    apply keyed_spec in Hks as [Hsnd _].
    assert (items (self w') ≡ₚ items (self w)) as Hperm.
    { by rewrite Hitems, <-Hsnd, (sort_Permutation _ _ _ _ Hs). }
    unfold live. rewrite Hdicts, Hperm. by split.
  - injection Hreset as <-. split; [|done]. unfold live in *; simpl.
    by rewrite reset_loop_length.
  - unfold get_empty_individ in Hget.
    assert (w' = w) as ->; [|done].
    clear IH. destruct (items (self w)); by simplify_eq.
Qed.

(** X4: a population made of an empty one by [add_dict],
    [sort_by_dict], [reset_idx_individ] and [get_empty_individ] holds
    no individual twice, so that [reset_idx_individ] gives it the
    indices [0, 1, ..., n-1]. *)
Theorem built_reset_dense (w : world) :
  built w →
  NoDup (items (self w))
  ∧ ∃ w', reset_idx_individ w = Ok ((), w')
          ∧ idx_fields w' = dense (length (items (self w))).
Proof.
  intros [Hlive Hnd]%built_distinct. split; [done|].
  eexists; split; [reflexivity|]. by apply reset_dense.
Qed.

Lemma keyed_KeyError h key its r :
  r ∈ its → deref h r !! key = None →
  keyed h key its = Raise (KeyError key).
Proof.
  intros Hr Hkey. induction its as [|r0 its IH]; [by apply elem_of_nil in Hr|].
  simpl. unfold getitem.
  destruct (deref h r0 !! key) as [v|] eqn:Hv; simpl; [|done].
  apply elem_of_cons in Hr as [->|Hr]; [congruence|]. by rewrite IH.
Qed.

(** X5: [sort_by_dict] raises [KeyError] as soon as one individual has
    no field [key_dict], whatever the size of the population and the
    other individuals. *)
Theorem sort_by_dict_KeyError (key_dict : string) (rv : bool) (w : world)
    (r : ref) :
  r ∈ items (self w) → deref (dicts w) r !! key_dict = None →
  sort_by_dict key_dict rv w = Raise (KeyError key_dict).
Proof.
  intros Hr Hkey. unfold sort_by_dict.
  by rewrite (keyed_KeyError _ _ _ r).
Qed.

Lemma insert_TypeError x (l : list (value * ref)) e :
  insert lt_key x l = Raise e → e = TypeError.
Proof.
  induction l as [|y l IH]; simpl; [done|].
  destruct (lt_key y x) as [[]|e'] eqn:Hyx; simpl.
  - destruct (insert lt_key x l); simpl; [done|]. intros [= <-]. by apply IH.
  - done.
  - intros [= <-]. unfold lt_key, py_lt in Hyx.
    destruct y.1 as [| | |k a], x.1 as [| | |k' b]; try by simplify_eq.
    destruct (decide (k = k')); by simplify_eq.
Qed.

Lemma isort_TypeError (l : list (value * ref)) e :
  isort lt_key l = Raise e → e = TypeError.
Proof.
  induction l as [|x l IH]; simpl; [done|].
  destruct (isort lt_key l) as [s|e']; simpl.
  - apply insert_TypeError.
  - intros [= <-]. by apply IH.
Qed.

Lemma insert_None x y (l : list (value * ref)) :
  x.1 = VNone ∨ y.1 = VNone → insert lt_key x (y :: l) = Raise TypeError.
Proof.
  destruct x as [kx rx], y as [ky ry]; simpl. unfold lt_key; simpl.
  intros [->| ->]; [|done]. by destruct ky.
Qed.

Lemma isort_None (l : list (value * ref)) :
  (2 ≤ length l)%nat → Exists (λ kr, kr.1 = VNone) l →
  isort lt_key l = Raise TypeError.
Proof.
  induction l as [|x l IH]; simpl; [lia|]. intros Hlen Hex.
  destruct (isort lt_key l) as [s|e] eqn:Hs; simpl.
  - assert (s ≡ₚ l) as Hperm by by eapply isort_Permutation.
    destruct s as [|y s].
    { apply Permutation_nil in Hperm. subst l. simpl in Hlen. lia. }
    apply Exists_cons in Hex as [Hx|Hl]; [by apply insert_None; left|].
    destruct l as [|z [|z' l]]; [simpl in Hlen; lia| |].
    + apply Exists_cons in Hl as [Hz|Hl]; [|by apply Exists_nil in Hl].
      simpl in Hs. injection Hs as <- <-. apply insert_None. by right.
    + assert (2 ≤ length (z :: z' :: l))%nat as Hlen' by (simpl; lia).
      by specialize (IH Hlen' Hl).
  - f_equal. by eapply isort_TypeError.
Qed.

(** X6: on a population of two or more individuals that all have the
    field, [sort_by_dict] raises [TypeError] when the field of one of
    them is [None]. *)
Theorem sort_by_dict_TypeError (key_dict : string) (rv : bool) (w : world)
    (r : ref) :
  (2 ≤ length (items (self w)))%nat →
  Forall (λ r, is_Some (deref (dicts w) r !! key_dict)) (items (self w)) →
  r ∈ items (self w) → deref (dicts w) r !! key_dict = Some VNone →
  sort_by_dict key_dict rv w = Raise TypeError.
Proof.
  intros Hlen Hall Hr Hnone. unfold sort_by_dict.
  pose proof (keyed_total _ _ _ Hall) as Hok.
  destruct (keyed (dicts w) key_dict (items (self w))) as [ks|e] eqn:Hks;
    [|done].
  apply keyed_spec in Hks as [Hsnd Hhas]. simpl.
  assert (Exists (λ kr, kr.1 = VNone) ks) as Hex.
  { rewrite <-Hsnd in Hr. apply list_elem_of_fmap in Hr as ([k r'] & -> & Hin).
    apply Exists_exists. exists (k, r'). split; [done|].
    rewrite Forall_forall in Hhas. apply Hhas in Hin.
    unfold has in Hin; simpl in *. congruence. }
  assert (length ks = length (items (self w))) as Hlen'.
  { by rewrite <-Hsnd, length_fmap. }
  unfold sort. rewrite isort_None; [done| |].
  - destruct rv; [rewrite length_reverse|]; lia.
  - destruct rv; [|done]. apply Exists_exists.
    apply Exists_exists in Hex as (kr & Hin & Hkr).
    exists kr. by rewrite elem_of_reverse.
Qed.

(** X7: a population of at most one individual is sorted without any
    comparison: when the individual has the field, whatever its
    value, [sort_by_dict] returns and leaves the list and the store as
    they are. *)
Theorem sort_by_dict_short (key_dict : string) (rv : bool) (w : world) :
  (length (items (self w)) ≤ 1)%nat →
  Forall (λ r, is_Some (deref (dicts w) r !! key_dict)) (items (self w)) →
  ∃ w', sort_by_dict key_dict rv w = Ok ((), w')
        ∧ items (self w') = items (self w)
        ∧ dicts w' = dicts w.
Proof.
  intros Hlen Hall. unfold sort_by_dict.
  destruct (items (self w)) as [|r [|r' its]] eqn:Hits; simpl in *; [| |lia].
  - destruct rv; simpl; eexists; (split; [reflexivity|]);
      by destruct (decide (key_dict = "score")).
  - apply Forall_cons in Hall as [[v Hv] _]. unfold getitem. rewrite Hv.
    destruct rv; simpl; eexists; (split; [reflexivity|]);
      by destruct (decide (key_dict = "score")).
Qed.

Lemma isort_Sorted_id {A} (lt : A → A → result bool) (l : list A) :
  Sorted (not_after lt) l → isort lt l = Ok l.
Proof.
  induction 1 as [|x l Hs IH Hhd]; simpl; [done|].
  rewrite IH; simpl. destruct Hhd as [|y l Hxy]; [done|].
  simpl. unfold not_after in Hxy. by rewrite Hxy.
Qed.

Lemma keyed_of_has h key (s : list (value * ref)) :
  Forall (λ kr, has h key kr.1 kr.2) s → keyed h key s.*2 = Ok s.
Proof.
  induction 1 as [|[k r] s Hkr _ IH]; [done|]. rewrite fmap_cons.
  unfold has in Hkr; simpl in Hkr. cbn [keyed snd]. unfold getitem.
  rewrite Hkr. cbn [mbind result_bind]. by rewrite IH.
Qed.

Lemma sort_sort rv (ks s : list (value * ref)) :
  sort lt_key rv ks = Ok s → sort lt_key rv s = Ok s.
Proof.
  unfold sort. destruct rv.
  - destruct (isort lt_key (reverse ks)) as [s0|e] eqn:Hs; simpl; [|done].
    intros [= <-]. rewrite reverse_involutive.
    rewrite (isort_Sorted_id lt_key s0); [done|].
    eapply isort_Sorted; [|done]. intros x y. apply py_lt_asym.
  - destruct (isort lt_key ks) as [s0|e] eqn:Hs; simpl; [|done].
    intros [= <-]. rewrite (isort_Sorted_id lt_key s0); [done|].
    eapply isort_Sorted; [|done]. intros x y. apply py_lt_asym.
Qed.

(** X8: sorting again by the same key and in the same direction
    returns and changes nothing. *)
Theorem sort_by_dict_idempotent (key_dict : string) (rv : bool)
    (w w' : world) :
  sort_by_dict key_dict rv w = Ok ((), w') →
  sort_by_dict key_dict rv w' = Ok ((), w').
Proof.
  intros Hsort.
  apply sort_by_dict_inv in Hsort as (ks & s & Hks & Hs & Hitems & Hdicts & Hw').
  apply keyed_spec in Hks as [_ Hall].
  assert (Forall (λ kr, has (dicts w) key_dict kr.1 kr.2) s) as Hall'.
  { apply Forall_forall. intros kr Hkr. rewrite Forall_forall in Hall.
    apply Hall. by rewrite <-(sort_Permutation _ _ _ _ Hs). }
  unfold sort_by_dict. rewrite Hdicts, Hitems, (keyed_of_has _ _ _ Hall').
  simpl. rewrite (sort_sort _ _ _ Hs). simpl. rewrite Hw'.
  destruct (self w). by destruct (decide (key_dict = "score")).
Qed.

Lemma add_dict_individuals data (w : world) :
  live w →
  individuals (mkWorld (set_items (items (self w) ++ [length (dicts w)]) (self w))
                       (dicts w ++ [data]))
  = individuals w ++ [data].
Proof.
  intros Hlive. unfold live in Hlive. rewrite Forall_forall in Hlive.
  unfold individuals; simpl. rewrite fmap_app; simpl. f_equal.
  - apply list_fmap_ext. intros k r Hk. unfold deref.
    rewrite lookup_app_l; [done|]. apply Hlive. by eapply list_elem_of_lookup_2.
  - unfold deref. by rewrite list_lookup_middle.
Qed.

Lemma Sorted_last_two {A} (R : relation A) (l : list A) a b :
  Sorted R (l ++ [a; b]) → R a b.
Proof.
  induction l as [|x l IH]; simpl; intros Hs.
  - apply Sorted_inv in Hs as [_ Hhd]. by apply HdRel_inv in Hhd.
  - apply Sorted_inv in Hs as [Hs _]. by apply IH.
Qed.

(** X9: [add_dict] does not touch [is_sorted]: adding an individual
    (a record [add_dict] accepts: no field ['self']) whose score is
    below the score of the last one to a population marked sorted
    leaves the mark, although the scores are no longer in order. *)
Theorem add_dict_stale_is_sorted (data : individ) (w : world) (q1 q2 : Qc) :
  live w → is_sorted (self w) = true →
  last (field "score" w) = Some (Some (VNum q1)) →
  data !! "self" = None →
  data !! "score" = Some (VNum q2) → (q2 < q1)%Qc →
  ∃ w', add_dict data w = Ok ((), w')
        ∧ is_sorted (self w') = true
        ∧ ¬ ∃ ks, field "score" w' = Some <$> ks ∧ Sorted (ordered false) ks.
Proof.
  intros Hlive Hflag Hlast Hself Hdata Hlt. unfold add_dict. rewrite Hself.
  eexists; split; [reflexivity|]. split; [done|].
  intros (ks & Hks & Hsorted). unfold field in Hks.
  rewrite add_dict_individuals in Hks by done.
  rewrite fmap_app in Hks; simpl in Hks. rewrite Hdata in Hks.
  apply last_Some in Hlast as [l Hl]. unfold field in Hl. rewrite Hl in Hks.
  rewrite <-(assoc_L (++)) in Hks; simpl in Hks.
  symmetry in Hks. apply fmap_app_inv in Hks as (ks0 & ks1 & _ & Hks1 & ->).
  destruct ks1 as [|a [|b [|c ks1]]]; simpl in Hks1; try done.
  injection Hks1 as <- <-.
  apply Sorted_last_two in Hsorted. unfold ordered, in_order, not_after in Hsorted.
  simpl in Hsorted. injection Hsorted as Hsorted.
  by apply bool_decide_eq_false in Hsorted.
Qed.

(** X10: the template of [get_empty_individ] comes from the first
    individual alone: after [add_dict] of a record it accepts (no
    field ['self']) on a population that held individuals, the
    template has the keys of the first of them, whatever the fields of
    the new one; only on an empty population does it take the keys of
    the new individual. *)
Theorem add_dict_template (data : individ) (w : world) :
  live w → data !! "self" = None →
  ∃ w', add_dict data w = Ok ((), w')
        ∧ fst <$> get_empty_individ w'
          = Ok (Some (fromkeys (default data (head (individuals w))))).
Proof.
  intros Hlive Hself. unfold add_dict. rewrite Hself.
  eexists; split; [reflexivity|].
  unfold get_empty_individ, individuals; simpl.
  destruct (items (self w)) as [|r its] eqn:Hits; simpl.
  - unfold deref. by rewrite list_lookup_middle.
  - unfold live in Hlive. rewrite Hits in Hlive.
    apply Forall_cons in Hlive as [Hr _].
    unfold deref. by rewrite lookup_app_l.
Qed.

End population_more.

(** * Sorting back by [idx_individ] *)

Section round_trip.
Import Population.

Lemma of_int_le (a b : Z) :
  (Q2Qc (inject_Z a) ≤ Q2Qc (inject_Z b))%Qc ↔ (a ≤ b)%Z.
Proof.
  rewrite Zle_Qle. unfold Qcle; simpl. apply Qle_comp; apply Qred_correct.
Qed.

Lemma of_int_inj (a b : Z) : of_int a = of_int b → a = b.
Proof.
  unfold of_int. intros H.
  assert (Q2Qc (inject_Z a) = Q2Qc (inject_Z b)) as Hq by congruence.
  apply Z.le_antisymm; apply of_int_le; rewrite Hq; apply Qcle_refl.
Qed.

Lemma StronglySorted_fmap_inv {A B} (R : relation B) (f : A → B) (l : list A) :
  StronglySorted R (f <$> l) → StronglySorted (λ x y, R (f x) (f y)) l.
Proof.
  induction l as [|x l IH]; [constructor|].
  rewrite fmap_cons. intros Hs. apply StronglySorted_inv in Hs as [Hs Hall].
  constructor; [by apply IH|].
  apply Forall_forall. intros y Hy. rewrite Forall_forall in Hall.
  apply Hall, list_elem_of_fmap. by exists y.
Qed.

Lemma StronglySorted_positions (idx : ref → Qc) (its : list ref) (i : Z) :
  (∀ k r, its !! k = Some r → idx r = Q2Qc (inject_Z (i + Z.of_nat k))) →
  StronglySorted (λ r1 r2, idx r1 ≤ idx r2)%Qc its.
Proof.
  revert i; induction its as [|r0 rest IH]; intros i Hpos; [constructor|].
  constructor.
  - apply (IH (i + 1)%Z). intros k r Hk.
    rewrite (Hpos (S k) r Hk). do 2 f_equal. lia.
  - apply Forall_forall. intros r Hr.
    apply list_elem_of_lookup_1 in Hr as [k Hk].
    rewrite (Hpos 0%nat r0 eq_refl), (Hpos (S k) r Hk).
    apply of_int_le. lia.
Qed.

(** X11: numbering the individuals with [reset_idx_individ] records the
    order of the population: after any [sort_by_dict] that returns,
    sorting by ['idx_individ'] returns and brings the population list
    back to the order it had when it was numbered, the individuals
    themselves unchanged. *)
Theorem sort_by_idx_individ_restores (key_dict : string) (rv : bool)
    (w w1 w2 : world) :
  live w → NoDup (items (self w)) →
  reset_idx_individ w = Ok ((), w1) →
  sort_by_dict key_dict rv w1 = Ok ((), w2) →
  ∃ w3, sort_by_dict "idx_individ" false w2 = Ok ((), w3)
        ∧ items (self w3) = items (self w)
        ∧ dicts w3 = dicts w1.
Proof.
  intros Hlive Hnd [= <-] Hsort.
  set (its := items (self w)) in *.
  set (h1 := reset_loop its 0 (dicts w)) in *.
  assert (∀ k r, its !! k = Some r →
            deref h1 r !! "idx_individ" = Some (of_int (Z.of_nat k))) as Hpos.
  { intros k r Hk. unfold h1. by rewrite (reset_loop_field _ 0%Z _ k). }
  apply sort_by_dict_inv in Hsort as (ks & s & Hks & Hs & Hitems & Hdicts & _).
  simpl in Hks, Hdicts. apply keyed_spec in Hks as [Hsnd _].
  change (ks.*2 = its) in Hsnd.
  assert (items (self w2) ≡ₚ its) as Hperm.
  { rewrite Hitems, <-Hsnd. by rewrite (sort_Permutation _ _ _ _ Hs). }
  assert (∀ r, r ∈ items (self w2) →
            ∃ k, its !! k = Some r
                 ∧ deref h1 r !! "idx_individ" = Some (of_int (Z.of_nat k)))
    as Hin.
  { intros r Hr. rewrite Hperm in Hr.
    apply list_elem_of_lookup_1 in Hr as [k Hk]. exists k. by split; [|apply Hpos]. }
  unfold sort_by_dict. rewrite Hdicts.
  destruct (keyed h1 "idx_individ" (items (self w2))) as [ks3|e] eqn:Hks3.
  2: { assert (is_ok (keyed h1 "idx_individ" (items (self w2)))) as Hok;
         [|by rewrite Hks3 in Hok].
       apply keyed_total, Forall_forall. intros r Hr.
       destruct (Hin r Hr) as (k & _ & Hk). by eexists. }
  simpl. apply keyed_spec in Hks3 as [Hsnd3 Hall3].
  assert (∀ kr, kr ∈ ks3 →
            ∃ k, its !! k = Some kr.2 ∧ kr.1 = of_int (Z.of_nat k)) as Hkey.
  { intros kr Hkr. rewrite Forall_forall in Hall3.
    pose proof (Hall3 _ Hkr) as Hhas. unfold has in Hhas.
    destruct (Hin kr.2) as (k & Hk & Hidx).
    { rewrite <-Hsnd3. apply list_elem_of_fmap. by exists kr. }
    exists k. split; [done|]. congruence. }
  destruct (sort lt_key false ks3) as [s3|e] eqn:Hs3.
  2: { assert (is_ok (sort lt_key false ks3)) as Hok; [|by rewrite Hs3 in Hok].
       apply sort_total. intros x y Hx Hy.
       destruct (Hkey x Hx) as (kx & _ & Hkx), (Hkey y Hy) as (ky & _ & Hky).
       unfold lt_key. by rewrite Hkx, Hky. }
  simpl. eexists; split; [reflexivity|].
  split; [|done]. simpl.
  set (idx := λ r : ref,
         match deref h1 r !! "idx_individ" with
         | Some (VNum q) => q
         | _ => 0%Qc
         end).
  assert (∀ k r, its !! k = Some r → idx r = Q2Qc (inject_Z (0 + Z.of_nat k)))
    as Hidx.
  { intros k r Hk. unfold idx. by rewrite (Hpos k r Hk). }
  assert (s3 ≡ₚ ks3) as Hperm3 by (by eapply sort_Permutation).
  assert (s3.*1 = VNum <$> (idx <$> s3.*2)) as Hkeys.
  { rewrite <-!list_fmap_compose. apply list_fmap_ext. intros j kr Hj; simpl.
    destruct (Hkey kr) as (k & Hk & Hkr).
    { rewrite <-Hperm3. by eapply list_elem_of_lookup_2. }
    by rewrite Hkr, (Hidx k _ Hk). }
  assert (s3.*2 ≡ₚ its) as Hback by (by rewrite Hperm3, Hsnd3, Hperm).
  symmetry.
  apply (StronglySorted_unique_strong (λ r1 r2, idx r1 ≤ idx r2)%Qc).
  - intros r1 r2 [k1 Hk1]%list_elem_of_lookup_1 Hr2. rewrite Hback in Hr2.
    apply list_elem_of_lookup_1 in Hr2 as [k2 Hk2].
    rewrite (Hidx _ _ Hk1), (Hidx _ _ Hk2), !of_int_le. intros H1 H2.
    assert (k1 = k2) as -> by lia. congruence.
  - by apply (StronglySorted_positions idx its 0).
  - apply (StronglySorted_fmap_inv Qcle idx).
    apply (Sorted_num false). rewrite <-Hkeys. by eapply sorted_keys.
  - done.
Qed.

End round_trip.

(** * More on the driver *)

Section driver_more.
Import VEGA.
Context `{pkg : GaPackage}.

(** X12: the loop stops at the first generation whose [update()]
    leaves the counter above the threshold then held by [ga_data]: a
    loop that returns either had nothing to do ([num_generations] at
    most 1) and returns [ga_data] as it got it, or returns the value of
    the last generation made; in all the generations before, the
    counter was not above the threshold, and if generations were left
    to make, in the last one it was. *)
Theorem early_stop_first_excess ops (N : Z) ga s gaF sF :
  main_loop ops (py_range 1 N) ga s = (Ok gaF, sF) →
  ((N ≤ 1)%Z ∧ gaF = ga ∧ sF = s)
  ∨ ∃ gs, history ops (py_range 1 N) ga s = gs ++ [gaF]
          ∧ Forall (λ g, num_generation_no_improve g
                         ≤ GaData.early_stop g)%Z gs
          ∧ (length gs < Z.to_nat (N - 1))%nat
          ∧ ((S (length gs) < Z.to_nat (N - 1))%nat →
             (num_generation_no_improve gaF > GaData.early_stop gaF)%Z).
Proof.
  destruct s as [st tr]. intros Hloop.
  destruct (main_loop_history _ _ _ _ _ _ _ Hloop)
    as (_ & Hlen & [(Hnil & -> & ->)|(gs & Hgs & Hall)]).
  - left. split; [|done].
    apply (f_equal length) in Hnil. rewrite py_range_length in Hnil.
    simpl in Hnil. lia.
  - right. exists gs. split; [done|]. split; [done|].
    rewrite py_range_length, Hgs, length_app in Hlen. simpl in Hlen.
    split; [lia|]. intros Hleft.
    apply (early_exit_by_break _ _ _ _ _ _ Hloop).
    rewrite py_range_length, Hgs, length_app. simpl. lia.
Qed.

(** X13: a run that returns has made the first generation and then
    whole generations of the loop, fewer than the [num_generations]
    that [ga_data] holds after the first [update()]; with
    [num_generations] at most 1 (zero and negative numbers included)
    the loop makes none, and the result is the first generation. *)
Theorem optimize_generations self st tr ops ga1 s1 ga c :
  first_generation_of self (st, tr) = (Ok (ops, ga1), s1) →
  optimize self (st, tr) = (Ok ga, c) →
  ∃ k, k = length (history ops (py_range 1 (GaData.num_generations ga1))
                           ga1 s1)
       ∧ c.2 = s1.2 ++ concat (replicate k generation) ++ finish self
       ∧ (k ≤ Z.to_nat (GaData.num_generations ga1 - 1))%nat
       ∧ ((GaData.num_generations ga1 ≤ 1)%Z → k = 0%nat ∧ ga = ga1).
Proof.
  intros Hfirst. unfold optimize. rewrite bind_eq, Hfirst. simpl.
  rewrite bind_eq. destruct s1 as [st1 tr1].
  destruct (main_loop ops (py_range 1 (GaData.num_generations ga1)) ga1
              (st1, tr1)) as [[g2|e] [st2 tr2]] eqn:Hloop; [|done].
  destruct (main_loop_history _ _ _ _ _ _ _ Hloop) as (Htr & Hlen & _).
  simpl in Htr. rewrite py_range_length in Hlen.
  assert ((GaData.num_generations ga1 ≤ 1)%Z →
          length (history ops (py_range 1 (GaData.num_generations ga1)) ga1
                          (st1, tr1)) = 0%nat ∧ g2 = ga1) as Hone.
  { intros HN. rewrite py_range_nil in Hloop |- * by lia.
    simpl in Hloop. by injection Hloop as <- _ _. }
  unfold finish. destruct (is_print self).
  - rewrite bind_call.
    destruct (print_best_solution g2 st2) as [[[] st3]|e]; simpl; [|done].
    intros [= <- <-]. eexists; split; [reflexivity|].
    split; [|split; [exact Hlen|exact Hone]].
    simpl. by rewrite Htr, <-!(assoc_L (++)).
  - simpl. intros [= <- <-]. eexists; split; [reflexivity|].
    split; [|split; [exact Hlen|exact Hone]].
    simpl. by rewrite (right_id_L [] (++)).
Qed.

Lemma no_print_before self n k :
  EPrint ∉ probe self ++ setup (is_gray self) n ++ first_generation
           ++ concat (replicate k generation).
Proof.
  rewrite !elem_of_app. intros [H|[H|[H|H]]].
  - unfold probe in H. destruct (conditions self).
    + by apply elem_of_nil in H.
    + by apply list_elem_of_singleton in H.
  - unfold setup in H.
    repeat (apply elem_of_cons in H as [H|H]; [done|]).
    by apply elem_of_nil in H.
  - unfold first_generation in H.
    repeat (apply elem_of_cons in H as [H|H]; [done|]).
    by apply elem_of_nil in H.
  - apply elem_of_generations in H. unfold generation in H.
    repeat (apply elem_of_cons in H as [H|H]; [done|]).
    by apply elem_of_nil in H.
Qed.

Lemma snoc_unique {A} (e : A) (l l1 t : list A) :
  e ∉ l → l1 ++ e :: t = l ++ [e] → l1 = l ∧ t = [].
Proof.
  revert l1; induction l as [|a l IH]; intros l1 Hnot; simpl.
  - destruct l1 as [|b l1]; simpl; [by intros [= ->]|].
    intros [= -> H]. by destruct l1.
  - apply not_elem_of_cons in Hnot as [Hne Hnot].
    destruct l1 as [|b l1]; simpl; [by intros [= -> _]|].
    intros [= -> H]. destruct (IH l1 Hnot H) as [-> ->]. done.
Qed.

(** X14: [print_best_solution] is called only when [is_print] is set,
    at most once, and as the last call of the run; a run with
    [is_print] that returns has made the call. *)
Theorem print_once_at_end self st tr :
  ∃ evs, (optimize self (st, tr)).2.2 = tr ++ evs
         ∧ (∀ l1 l2, evs = l1 ++ EPrint :: l2 →
              is_print self = true ∧ l2 = [] ∧ EPrint ∉ l1)
         ∧ (is_ok (optimize self (st, tr)).1 → is_print self = true →
            last evs = Some EPrint).
Proof.
  destruct (optimize_calls self st tr)
    as (n & k & evs & Htr & [rest Hrest] & Hok & _).
  exists (probe self ++ evs). split; [done|]. split.
  - intros l1 l2 Heq.
    assert (l1 ++ EPrint :: (l2 ++ rest)
            = (probe self ++ setup (is_gray self) n ++ first_generation
               ++ concat (replicate k generation)) ++ finish self) as Hall.
    { transitivity ((l1 ++ EPrint :: l2) ++ rest);
        [by rewrite <-(assoc_L (++))|].
      rewrite <-Heq, <-!(assoc_L (++)). f_equal. unfold body in Hrest.
      by rewrite <-Hrest. }
    pose proof (no_print_before self n k) as Hnot.
    unfold finish in Hall. destruct (is_print self).
    + apply snoc_unique in Hall as [-> Hnil]; [|done].
      apply app_eq_nil in Hnil as [-> _]. by repeat split.
    + rewrite (right_id_L [] (++)) in Hall. destruct Hnot.
      rewrite <-Hall. apply elem_of_app. right. by left.
  - intros Hok' Hp. rewrite Hok by done. unfold body, finish. rewrite Hp.
    rewrite !(assoc_L (++)). apply last_snoc.
Qed.

(** X15: [tournament_size] is stored and never read: two drivers that
    differ in it only run alike, the selection being constructed from
    the number of objectives alone. *)
Theorem optimize_ignores_tournament_size (num_generations num_individ : Z)
    (gens : list (Qc * Qc * Qc)) (obj_function : callable)
    (obj_value : option Qc) (input_data : value)
    (penalty : option BasePenalty) (conditions : option (list string))
    (is_gray : bool) (children_percent : Qc) (early_stop : option Z)
    (input_population : option (list (list Qc))) (t1 t2 : Z)
    (mutation_lvl : string + Qc) (transfer_parents : string)
    (is_print : bool) :
  optimize (__init__ num_generations num_individ gens obj_function
              obj_value input_data penalty conditions is_gray
              children_percent early_stop input_population t1
              mutation_lvl transfer_parents is_print)
  = optimize (__init__ num_generations num_individ gens obj_function
                obj_value input_data penalty conditions is_gray
                children_percent early_stop input_population t2
                mutation_lvl transfer_parents is_print).
Proof. reflexivity. Qed.

End driver_more.

(** * The further properties on concrete populations and runs *)

Section more_runs.
Import Population VEGA Reference.
Existing Instance Reference.package.

Lemma reset_idx_individ_last_occurrence_witness :
  ∃ w' j, reset_idx_individ aliased = Ok ((), w')
          ∧ items (self aliased) !! j = Some 0%nat
          ∧ idx_fields w' !! 0%nat = Some (Some (of_int (Z.of_nat j))).
Proof.
  destruct (reset_idx_individ_last_occurrence aliased 0 0)
    as (w' & j & Hrun & _ & Hj & _ & Hidx).
  - repeat constructor.
  - reflexivity.
  - by exists w', j.
Defined.

Lemma built_reset_dense_witness :
  ∃ w1 w2 w3 w4 w',
    add_dict (scored 1) (mkWorld empty_population []) = Ok ((), w1)
    ∧ add_dict (scored 3) w1 = Ok ((), w2)
    ∧ add_dict (scored 2) w2 = Ok ((), w3)
    ∧ sort_by_dict "score" true w3 = Ok ((), w4)
    ∧ items (self w4) = [1; 2; 0]%nat
    ∧ reset_idx_individ w4 = Ok ((), w')
    ∧ idx_fields w' = dense 3.
Proof.
  destruct (add_dict (scored 1) (mkWorld empty_population []))
    as [[[] w1]|e] eqn:E1; [|vm_compute in E1; discriminate E1].
  destruct (add_dict (scored 3) w1) as [[[] w2]|e] eqn:E2;
    [|vm_compute in E1; injection E1 as <-; vm_compute in E2; discriminate E2].
  destruct (add_dict (scored 2) w2) as [[[] w3]|e] eqn:E3;
    [|vm_compute in E1; injection E1 as <-; vm_compute in E2;
      injection E2 as <-; vm_compute in E3; discriminate E3].
  destruct (sort_by_dict "score" true w3) as [[[] w4]|e] eqn:E4;
    [|vm_compute in E1; injection E1 as <-; vm_compute in E2;
      injection E2 as <-; vm_compute in E3; injection E3 as <-;
      vm_compute in E4; discriminate E4].
  assert (built w4) as Hbuilt.
  { apply (built_sort_by_dict w3 "score" true); [|exact E4].
    apply (built_add_dict w2 (scored 2)); [|exact E3].
    apply (built_add_dict w1 (scored 3)); [|exact E2].
    apply (built_add_dict (mkWorld empty_population []) (scored 1));
      [by apply built_new|exact E1]. }
  destruct (built_reset_dense w4 Hbuilt) as (_ & w' & Hrun & Hidx).
  exists w1, w2, w3, w4, w'. split; [reflexivity|].
  split; [exact E2|]. split; [exact E3|]. split; [exact E4|].
  assert (items (self w4) = [1; 2; 0]%nat) as Hitems.
  { vm_compute in E1; injection E1 as <-. vm_compute in E2; injection E2 as <-.
    vm_compute in E3; injection E3 as <-. vm_compute in E4.
    by injection E4 as <-. }
  split; [exact Hitems|]. split; [exact Hrun|]. by rewrite Hidx, Hitems.
Defined.

Lemma sort_by_dict_KeyError_witness :
  sort_by_dict "gens" false four = Raise (KeyError "gens").
Proof.
  apply (sort_by_dict_KeyError "gens" false four 0).
  - by left.
  - by vm_compute.
Defined.

Lemma sort_by_dict_TypeError_witness :
  sort_by_dict "score" true
    (mkWorld (mkPopulation [0; 1]%nat false None None None)
             [scored 1; {["score" := VNone]}])
  = Raise TypeError.
Proof.
  apply (sort_by_dict_TypeError "score" true _ 1).
  - simpl. lia.
  - repeat constructor; by eexists.
  - right. by left.
  - by vm_compute.
Defined.

Lemma sort_by_dict_short_witness :
  ∃ w', sort_by_dict "score" false
          (mkWorld (mkPopulation [0]%nat false None None None)
                   [{["score" := VNone]}])
        = Ok ((), w')
        ∧ items (self w') = [0%nat].
Proof.
  destruct (sort_by_dict_short "score" false
              (mkWorld (mkPopulation [0]%nat false None None None)
                       [{["score" := VNone]}]))
    as (w' & Hrun & Hitems & _).
  - simpl. lia.
  - repeat constructor; by eexists.
  - by exists w'.
Defined.

Lemma sort_by_dict_idempotent_witness :
  ∃ w', sort_by_dict "score" true four = Ok ((), w')
        ∧ sort_by_dict "score" true w' = Ok ((), w').
Proof.
  destruct (sort_by_dict "score" true four) as [[[] w']|e] eqn:E.
  - exists w'. split; [done|].
    exact (sort_by_dict_idempotent "score" true four w' E).
  - vm_compute in E. discriminate E.
Defined.

Lemma add_dict_stale_is_sorted_witness :
  ∃ w', add_dict (scored 0)
          (mkWorld (mkPopulation [1; 3; 0; 2]%nat true None None None)
                   [scored 3; scored 1; scored 3; scored 2])
        = Ok ((), w')
        ∧ is_sorted (self w') = true
        ∧ ¬ ∃ ks, field "score" w' = Some <$> ks ∧ Sorted (ordered false) ks.
Proof.
  apply (add_dict_stale_is_sorted (scored 0) _
           (Q2Qc (inject_Z 3)) (Q2Qc (inject_Z 0))).
  - repeat constructor.
  - reflexivity.
  - by vm_compute.
  - by vm_compute.
  - by vm_compute.
  - by vm_compute.
Defined.

Lemma add_dict_template_witness :
  ∃ w', add_dict {["gens" := VSeq PyList []]} four = Ok ((), w')
        ∧ fst <$> get_empty_individ w' = Ok (Some (fromkeys (scored 3))).
Proof.
  destruct (add_dict_template {["gens" := VSeq PyList []]} four)
    as (w' & Hrun & Hkeys).
  - repeat constructor.
  - reflexivity.
  - exists w'. split; [done|exact Hkeys].
Defined.

Lemma sort_by_idx_individ_restores_witness :
  ∃ w1 w2 w3,
    reset_idx_individ four = Ok ((), w1)
    ∧ sort_by_dict "score" true w1 = Ok ((), w2)
    ∧ sort_by_dict "idx_individ" false w2 = Ok ((), w3)
    ∧ items (self w3) = items (self four).
Proof.
  destruct (sort_by_dict "score" true
              (mkWorld (self four)
                       (reset_loop (items (self four)) 0
                                   (Population.dicts four))))
    as [[[] w2]|e] eqn:E.
  - assert (live four) as Hlive by repeat constructor.
    assert (NoDup (items (self four))) as Hnd
      by (by apply (bool_decide_unpack _)).
    destruct (sort_by_idx_individ_restores "score" true four _ w2
                Hlive Hnd eq_refl E) as (w3 & Hrun & Hitems & _).
    eexists _, w2, w3. split; [reflexivity|]. by split.
  - vm_compute in E. discriminate E.
Defined.

Lemma early_stop_first_excess_witness :
  ∃ gaF sF gs,
    main_loop (start (constant_run 10 (Some 3%Z))).1.1 (py_range 1 10)
              (start (constant_run 10 (Some 3%Z))).1.2
              (start (constant_run 10 (Some 3%Z))).2 = (Ok gaF, sF)
    ∧ history (start (constant_run 10 (Some 3%Z))).1.1 (py_range 1 10)
              (start (constant_run 10 (Some 3%Z))).1.2
              (start (constant_run 10 (Some 3%Z))).2 = gs ++ [gaF]
    ∧ Forall (λ g, num_generation_no_improve g ≤ GaData.early_stop g)%Z gs.
Proof.
  destruct (main_loop (start (constant_run 10 (Some 3%Z))).1.1 (py_range 1 10)
              (start (constant_run 10 (Some 3%Z))).1.2
              (start (constant_run 10 (Some 3%Z))).2) as [[gaF|e] sF] eqn:E.
  - destruct (early_stop_first_excess _ 10 _ _ gaF sF E)
      as [[HN _]|(gs & Hgs & Hall & _)]; [lia|].
    exists gaF, sF, gs. split; [reflexivity|]. split; [exact Hgs|exact Hall].
  - vm_compute in E. discriminate E.
Defined.

Lemma optimize_generations_witness :
  ∃ ops ga1 s1 ga c k,
    first_generation_of (constant_run 1 (Some 3%Z)) (mkState [] (), [])
    = (Ok (ops, ga1), s1)
    ∧ run (constant_run 1 (Some 3%Z)) = (Ok ga, c)
    ∧ c.2 = s1.2 ++ concat (replicate k generation)
            ++ finish (constant_run 1 (Some 3%Z))
    ∧ (k ≤ Z.to_nat (GaData.num_generations ga1 - 1))%nat.
Proof.
  assert (is_ok (first_generation_of (constant_run 1 (Some 3%Z))
                   (mkState [] (), [])).1) as HF by (vm_compute; exact I).
  assert (is_ok (run (constant_run 1 (Some 3%Z))).1) as HO
    by (vm_compute; exact I).
  destruct (first_generation_of (constant_run 1 (Some 3%Z))
              (mkState [] (), [])) as [[[ops ga1]|e] s1] eqn:F;
    [|destruct HF].
  destruct (run (constant_run 1 (Some 3%Z))) as [[ga|e] c] eqn:O;
    [|destruct HO].
  destruct (optimize_generations (constant_run 1 (Some 3%Z))
              (mkState [] ()) [] ops ga1 s1 ga c F O)
    as (k & _ & Hc & Hk & _).
  exists ops, ga1, s1, ga, c, k. split; [reflexivity|].
  split; [reflexivity|]. split; [exact Hc|exact Hk].
Defined.

End more_runs.
